(** * casbin-prometheus-logger: the event-to-metric recording engine

    A shallow embedding of [prometheus_logger.go] (package
    [prometheuslogger]) and of the part of the Prometheus client library
    it drives, followed by the properties of the before/after protocol,
    the label projector, the metric dispatch and the registration
    life cycle. *)

From Stdlib Require Import ZArith QArith Lia.
From stdpp Require Import base option list strings gmap fin_maps sorting.

#[local] Set Warnings "-clear-no-such-hyp".

#[local] Open Scope string_scope.
#[local] Open Scope nat_scope.

(* ===================================================================== *)
(** ** Go values used by the logger *)
(* ===================================================================== *)

(** Go's [error] interface: [None] is [nil], [Some msg] a non-nil error. *)
Abbreviation error := (option string).

(** [time.Time] and [time.Duration].  An instant is a number of
    nanoseconds on one time line; a [Duration] is an [int64] count of
    nanoseconds.  [Sub] is the library's saturating difference: "if the
    result exceeds the maximum (or minimum) value that can be stored in a
    Duration, the maximum (or minimum) duration will be returned".
    [Seconds] is the duration as a number of seconds; the rounding of
    [float64] is left out, the value is kept as an exact fraction. *)
Module time.

Abbreviation Time := Z.
Abbreviation Duration := Z.

Definition minDuration : Duration := (- 2 ^ 63)%Z.
Definition maxDuration : Duration := (2 ^ 63 - 1)%Z.

Definition Sub (t u : Time) : Duration :=
  let d := (t - u)%Z in
  if (d <? minDuration)%Z then minDuration
  else if (maxDuration <? d)%Z then maxDuration
  else d.

Definition Seconds (d : Duration) : Q := Qmake d 1000000000.

End time.

(** [float64(n)] for an [int]. *)
Definition float64 (n : Z) : Q := inject_Z n.

(** [utf8.ValidString]: whether the bytes of a string are well-formed
    UTF-8, with overlong forms, surrogates and code points above 10FFFF
    refused. *)
Module utf8.

Definition inRange (lo hi : N) (c : Ascii.ascii) : bool :=
  (lo <=? Ascii.N_of_ascii c)%N && (Ascii.N_of_ascii c <=? hi)%N.

Definition cont (c : Ascii.ascii) : bool := inRange 128 191 c.

Fixpoint ValidString (s : string) : bool :=
  match s with
  | EmptyString => true
  | String c0 s1 =>
      if inRange 0 127 c0 then ValidString s1
      else match s1 with
           | EmptyString => false
           | String c1 s2 =>
               if inRange 194 223 c0 then cont c1 && ValidString s2
               else match s2 with
                    | EmptyString => false
                    | String c2 s3 =>
                        if inRange 224 224 c0 then
                          inRange 160 191 c1 && cont c2 && ValidString s3
                        else if inRange 225 236 c0 || inRange 238 239 c0 then
                          cont c1 && cont c2 && ValidString s3
                        else if inRange 237 237 c0 then
                          inRange 128 159 c1 && cont c2 && ValidString s3
                        else match s3 with
                             | EmptyString => false
                             | String c3 s4 =>
                                 if inRange 240 240 c0 then
                                   inRange 144 191 c1 && cont c2 && cont c3
                                   && ValidString s4
                                 else if inRange 241 243 c0 then
                                   cont c1 && cont c2 && cont c3 && ValidString s4
                                 else if inRange 244 244 c0 then
                                   inRange 128 143 c1 && cont c2 && cont c3
                                   && ValidString s4
                                 else false
                             end
                    end
           end
  end.

End utf8.

(* ===================================================================== *)
(** ** The Prometheus client library, as far as the logger uses it *)
(* ===================================================================== *)

Module prometheus.

(** A metric descriptor.  The logger's families have no constant
    labels, so a descriptor's identity in a registry is its
    fully-qualified name, and its dimension is the help text with the
    variable label names sorted, so that their order does not matter. *)
Record Desc := {
  fqName : string;
  help : string;
  variableLabels : list string;
}.

(** [NewDesc] rejects a label list that names a label twice. *)
Definition Desc_valid (d : Desc) : bool :=
  bool_decide (NoDup (variableLabels d)).

Definition labelNameLe (a b : string) : Prop := String.leb a b = true.

#[global] Instance labelNameLe_dec : RelDecision labelNameLe.
Proof. intros a b. unfold labelNameLe. apply _. Defined.

Definition Desc_dim (d : Desc) : string * list string :=
  (help d, merge_sort labelNameLe (variableLabels d)).

(** A metric vector: one child per label-value vector.  [CounterVec],
    [HistogramVec] and [GaugeVec] wrap the same [MetricVec]. *)
Record MetricVec (V : Type) := {
  desc : Desc;
  metrics : gmap (list string) V;
}.
Arguments desc {V} _.
Arguments metrics {V} _.

Definition NewMetricVec {V : Type} (name hlp : string) (labelNames : list string)
  : MetricVec V :=
  {| desc := {| fqName := name; help := hlp; variableLabels := labelNames |};
     metrics := ∅ |}.

(** The value of the child at [lvs]; a child that was never touched
    reads as the zero value it would be created with. *)
Definition child {V : Type} (zero : V) (v : MetricVec V) (lvs : list string) : V :=
  default zero (metrics v !! lvs).

(** The library accepts label values that are valid UTF-8. *)
Definition validLabelValues (lvs : list string) : bool :=
  forallb utf8.ValidString lvs.

(** [v.WithLabelValues(lvs...).m()] where the method [m] turns the
    child's value into [update value].  The child is created on first
    use.  [WithLabelValues] panics ([None]) when the number of values
    is not the number of label names of the vector, and when a value is
    not valid UTF-8. *)
Definition WithLabelValues {V : Type} (zero : V) (lvs : list string)
    (update : V → V) (v : MetricVec V) : option (MetricVec V) :=
  if bool_decide (length lvs = length (variableLabels (desc v)))
     && validLabelValues lvs then
    Some {| desc := desc v;
            metrics := <[lvs := update (child zero v lvs)]> (metrics v) |}
  else None.

(** Counters count their increments, histograms keep their
    observations (most recent first), gauges keep the last value set. *)
Abbreviation CounterVec := (MetricVec nat).
Abbreviation HistogramVec := (MetricVec (list Q)).
Abbreviation GaugeVec := (MetricVec Q).

Definition Inc (lvs : list string) (v : CounterVec) : option CounterVec :=
  WithLabelValues 0 lvs S v.

Definition Observe (lvs : list string) (x : Q) (v : HistogramVec) : option HistogramVec :=
  WithLabelValues [] lvs (cons x) v.

Definition Set_ (lvs : list string) (x : Q) (v : GaugeVec) : option GaugeVec :=
  WithLabelValues (float64 0) lvs (λ _, x) v.

(** A registry: the identities of the registered collectors, and the
    dimension first seen under each name.  The latter is kept when a
    collector is unregistered ("those must be consistent throughout the
    lifetime of a program"). *)
Record Registry := {
  collectorsByID : gset string;
  dimHashesByName : gmap string (string * list string);
}.

Definition NewRegistry : Registry :=
  {| collectorsByID := ∅; dimHashesByName := ∅ |}.

(** [Register] returns an error ([None]) for an invalid descriptor, for
    a name whose recorded dimension differs, and for an identity that
    is already registered. *)
Definition Register (d : Desc) (r : Registry) : option Registry :=
  if negb (Desc_valid d) then None
  else if bool_decide (fqName d ∈ collectorsByID r) then None
  else match dimHashesByName r !! fqName d with
       | Some dim =>
           if bool_decide (dim = Desc_dim d) then
             Some {| collectorsByID := {[fqName d]} ∪ collectorsByID r;
                     dimHashesByName := dimHashesByName r |}
           else None
       | None =>
           Some {| collectorsByID := {[fqName d]} ∪ collectorsByID r;
                   dimHashesByName := <[fqName d := Desc_dim d]> (dimHashesByName r) |}
       end.

(** How a call ended. *)
Inductive outcome := Returned | Panicked.

(** [MustRegister(cs...)] registers in order and panics at the first
    error; what was registered before the panic stays registered. *)
Fixpoint MustRegister (ds : list Desc) (r : Registry) : Registry * outcome :=
  match ds with
  | [] => (r, Returned)
  | d :: ds' =>
      match Register d r with
      | Some r' => MustRegister ds' r'
      | None => (r, Panicked)
      end
  end.

(** [Unregister] reports whether the collector was registered. *)
Definition Unregister (d : Desc) (r : Registry) : bool * Registry :=
  if bool_decide (fqName d ∈ collectorsByID r) then
    (true, {| collectorsByID := collectorsByID r ∖ {[fqName d]};
              dimHashesByName := dimHashesByName r |})
  else (false, r).

End prometheus.

(* ===================================================================== *)
(** ** Events and log entries *)
(* ===================================================================== *)

Import prometheus.

(** [EventType] is a string type: the logger converts it with
    [string(entry.EventType)] and keys a map with it. *)
Abbreviation EventType := string.

(** The five event constants are declared outside the logger's source
    file; the logger only compares against them and stringifies them, so
    their values are taken as a parameter. *)
Record EventKinds := {
  EventEnforce : EventType;
  EventAddPolicy : EventType;
  EventRemovePolicy : EventType;
  EventLoadPolicy : EventType;
  EventSavePolicy : EventType;
}.

(** The four policy operations, in the order of the [case] list. *)
Definition policyKinds (K : EventKinds) : list EventType :=
  [EventAddPolicy K; EventRemovePolicy K; EventLoadPolicy K; EventSavePolicy K].

(** A [switch] over constants does not compile when two of its cases are
    the same constant. *)
Definition kinds_distinct (K : EventKinds) : Prop :=
  NoDup (EventEnforce K :: policyKinds K).

(** The values the constants have in Casbin's logging interface. *)
Definition casbinKinds : EventKinds :=
  {| EventEnforce := "enforce";
     EventAddPolicy := "addPolicy";
     EventRemovePolicy := "removePolicy";
     EventLoadPolicy := "loadPolicy";
     EventSavePolicy := "savePolicy" |}.

(** [LogEntry], with the fields the logger and its tests read and write.
    The caller passes a pointer; the functions below return the entry as
    they leave it. *)
Record LogEntry := {
  IsActive : bool;
  EventType_ : EventType;
  StartTime : time.Time;
  EndTime : time.Time;
  Duration : time.Duration;
  Subject : string;
  Object : string;
  Action : string;
  Domain : string;
  Allowed : bool;
  RuleCount : Z;
  Error : error;
}.

Definition set_IsActive (b : bool) (e : LogEntry) : LogEntry :=
  {| IsActive := b; EventType_ := EventType_ e; StartTime := StartTime e;
     EndTime := EndTime e; Duration := Duration e; Subject := Subject e;
     Object := Object e; Action := Action e; Domain := Domain e;
     Allowed := Allowed e; RuleCount := RuleCount e; Error := Error e |}.

Definition set_StartTime (t : time.Time) (e : LogEntry) : LogEntry :=
  {| IsActive := IsActive e; EventType_ := EventType_ e; StartTime := t;
     EndTime := EndTime e; Duration := Duration e; Subject := Subject e;
     Object := Object e; Action := Action e; Domain := Domain e;
     Allowed := Allowed e; RuleCount := RuleCount e; Error := Error e |}.

Definition set_EndTime (t : time.Time) (e : LogEntry) : LogEntry :=
  {| IsActive := IsActive e; EventType_ := EventType_ e; StartTime := StartTime e;
     EndTime := t; Duration := Duration e; Subject := Subject e;
     Object := Object e; Action := Action e; Domain := Domain e;
     Allowed := Allowed e; RuleCount := RuleCount e; Error := Error e |}.

Definition set_Duration (d : time.Duration) (e : LogEntry) : LogEntry :=
  {| IsActive := IsActive e; EventType_ := EventType_ e; StartTime := StartTime e;
     EndTime := EndTime e; Duration := d; Subject := Subject e;
     Object := Object e; Action := Action e; Domain := Domain e;
     Allowed := Allowed e; RuleCount := RuleCount e; Error := Error e |}.

(* ===================================================================== *)
(** ** The logger *)
(* ===================================================================== *)

(** The callback receives the entry by pointer: it may change it, and it
    returns an error. *)
Definition Callback : Type := LogEntry → LogEntry * error.

Record PrometheusLogger := {
  enabledEventTypes : gmap EventType bool;
  callback : option Callback;
  enforceLabels : list string;
  enforceDuration : HistogramVec;
  enforceTotal : CounterVec;
  policyOpsTotal : CounterVec;
  policyOpsDuration : HistogramVec;
  policyRulesCount : GaugeVec;
  policyStateCount : GaugeVec;
}.

Record PrometheusLoggerOptions := {
  EnforceLabels : list string;
}.

(** The loop that builds the enforce label list: "allowed" and "domain"
    first, then each supplied label that is one of the three optional
    names, appended in the order supplied. *)
Definition isOptionalLabel (label : string) : bool :=
  (label =? "subject")%string || (label =? "object")%string
  || (label =? "action")%string.

Definition buildEnforceLabels (supplied : list string) : list string :=
  foldl (λ enforceLabels label,
           if isOptionalLabel label then (enforceLabels ++ [label])%list
           else enforceLabels)
        ["allowed"; "domain"] supplied.

(** The six descriptors, in the order they are registered and
    unregistered. *)
Definition collectors (p : PrometheusLogger) : list Desc :=
  [desc (enforceDuration p); desc (enforceTotal p); desc (policyOpsTotal p);
   desc (policyOpsDuration p); desc (policyRulesCount p); desc (policyStateCount p)].

(** The logger literal of the constructor: an empty event-type map, no
    callback, and six fresh metric vectors. *)
Definition newLogger (enforceLabels : list string) : PrometheusLogger :=
  {| enabledEventTypes := ∅;
     callback := None;
     enforceLabels := enforceLabels;
     enforceDuration :=
       NewMetricVec "casbin_enforce_duration_seconds"
         "Duration of enforce requests in seconds" enforceLabels;
     enforceTotal :=
       NewMetricVec "casbin_enforce_total"
         "Total number of enforce requests" enforceLabels;
     policyOpsTotal :=
       NewMetricVec "casbin_policy_operations_total"
         "Total number of policy operations" ["operation"; "success"];
     policyOpsDuration :=
       NewMetricVec "casbin_policy_operations_duration_seconds"
         "Duration of policy operations in seconds" ["operation"];
     policyRulesCount :=
       NewMetricVec "casbin_policy_rules_count"
         "Number of policy rules affected by operations" ["operation"];
     policyStateCount :=
       NewMetricVec "casbin_policy_state_count"
         "Current number of policy rules by type" ["ptype"] |}.

(** [NewPrometheusLoggerWithOptions].  A nil [registry] selects the
    default registry, a nil [options] the empty options.  The result is
    the target registry as the call leaves it, and the logger unless
    [MustRegister] panicked. *)
Definition NewPrometheusLoggerWithOptions (registry : option Registry)
    (options : option PrometheusLoggerOptions) (DefaultRegisterer : Registry)
  : Registry * option PrometheusLogger :=
  let options := default {| EnforceLabels := [] |} options in
  let enforceLabels := buildEnforceLabels (EnforceLabels options) in
  let logger := newLogger enforceLabels in
  let target := default DefaultRegisterer registry in
  match MustRegister (collectors logger) target with
  | (r, Returned) => (r, Some logger)
  | (r, Panicked) => (r, None)
  end.

Definition NewPrometheusLogger (DefaultRegisterer : Registry) :=
  NewPrometheusLoggerWithOptions None None DefaultRegisterer.

Definition NewPrometheusLoggerWithRegistry (registry : option Registry)
    (DefaultRegisterer : Registry) :=
  NewPrometheusLoggerWithOptions registry None DefaultRegisterer.

(** Field updates of the logger. *)
Definition with_enabledEventTypes (m : gmap EventType bool) (p : PrometheusLogger) :=
  {| enabledEventTypes := m; callback := callback p;
     enforceLabels := enforceLabels p; enforceDuration := enforceDuration p;
     enforceTotal := enforceTotal p; policyOpsTotal := policyOpsTotal p;
     policyOpsDuration := policyOpsDuration p;
     policyRulesCount := policyRulesCount p;
     policyStateCount := policyStateCount p |}.

Definition with_callback (cb : option Callback) (p : PrometheusLogger) :=
  {| enabledEventTypes := enabledEventTypes p; callback := cb;
     enforceLabels := enforceLabels p; enforceDuration := enforceDuration p;
     enforceTotal := enforceTotal p; policyOpsTotal := policyOpsTotal p;
     policyOpsDuration := policyOpsDuration p;
     policyRulesCount := policyRulesCount p;
     policyStateCount := policyStateCount p |}.

Definition with_enforce (h : HistogramVec) (c : CounterVec) (p : PrometheusLogger) :=
  {| enabledEventTypes := enabledEventTypes p; callback := callback p;
     enforceLabels := enforceLabels p; enforceDuration := h;
     enforceTotal := c; policyOpsTotal := policyOpsTotal p;
     policyOpsDuration := policyOpsDuration p;
     policyRulesCount := policyRulesCount p;
     policyStateCount := policyStateCount p |}.

Definition with_policyOps (c : CounterVec) (h : HistogramVec) (g : GaugeVec)
    (p : PrometheusLogger) :=
  {| enabledEventTypes := enabledEventTypes p; callback := callback p;
     enforceLabels := enforceLabels p; enforceDuration := enforceDuration p;
     enforceTotal := enforceTotal p; policyOpsTotal := c;
     policyOpsDuration := h;
     policyRulesCount := g;
     policyStateCount := policyStateCount p |}.

Definition with_policyStateCount (g : GaugeVec) (p : PrometheusLogger) :=
  {| enabledEventTypes := enabledEventTypes p; callback := callback p;
     enforceLabels := enforceLabels p; enforceDuration := enforceDuration p;
     enforceTotal := enforceTotal p; policyOpsTotal := policyOpsTotal p;
     policyOpsDuration := policyOpsDuration p;
     policyRulesCount := policyRulesCount p;
     policyStateCount := g |}.

(** [SetEventTypes] replaces the map by a fresh one holding [true] for
    each listed type. *)
Definition SetEventTypes (p : PrometheusLogger) (eventTypes : list EventType)
  : PrometheusLogger * error :=
  (with_enabledEventTypes
     (foldl (λ m eventType, <[eventType := true]> m) ∅ eventTypes) p,
   None).

(** Reading a Go map at a missing key gives the zero value. *)
Definition enabled (p : PrometheusLogger) (t : EventType) : bool :=
  default false (enabledEventTypes p !! t).

(** [OnBeforeEvent]; [now] is the reading of [time.Now()]. *)
Definition OnBeforeEvent (p : PrometheusLogger) (now : time.Time) (entry : LogEntry)
  : LogEntry * error :=
  if (0 <? size (enabledEventTypes p)) && negb (enabled p (EventType_ entry))
  then (set_IsActive false entry, None)
  else (set_StartTime now (set_IsActive true entry), None).

(** [SetLogCallback]; a nil callback is [None]. *)
Definition SetLogCallback (p : PrometheusLogger) (cb : option Callback)
  : PrometheusLogger * error :=
  (with_callback cb p, None).

(** The label values of [recordEnforceMetrics]: a slice of empty strings
    as long as the label list, filled position by position; a label that
    matches no case leaves its position as it is. *)
Definition fillLabelValue (allowed domain : string) (entry : LogEntry)
    (labelValues : list string) (il : nat * string) : list string :=
  let '(i, label) := il in
  if (label =? "allowed")%string then <[i := allowed]> labelValues
  else if (label =? "domain")%string then <[i := domain]> labelValues
  else if (label =? "subject")%string then <[i := Subject entry]> labelValues
  else if (label =? "object")%string then <[i := Object entry]> labelValues
  else if (label =? "action")%string then <[i := Action entry]> labelValues
  else labelValues.

Definition enforceDomain (entry : LogEntry) : string :=
  if (Domain entry =? "")%string then "default" else Domain entry.

Definition enforceAllowed (entry : LogEntry) : string :=
  if Allowed entry then "true" else "false".

Definition enforceLabelValues (labels : list string) (entry : LogEntry) : list string :=
  foldl (fillLabelValue (enforceAllowed entry) (enforceDomain entry) entry)
        (replicate (length labels) "") (imap pair labels).

(** [recordEnforceMetrics]: observe the duration, then count. *)
Definition recordEnforceMetrics (p : PrometheusLogger) (entry : LogEntry)
  : option PrometheusLogger :=
  let labelValues := enforceLabelValues (enforceLabels p) entry in
  h ← Observe labelValues (time.Seconds (Duration entry)) (enforceDuration p);
  c ← Inc labelValues (enforceTotal p);
  Some (with_enforce h c p).

(** [recordPolicyMetrics]. *)
Definition policySuccess (entry : LogEntry) : string :=
  match Error entry with None => "true" | Some _ => "false" end.

Definition recordPolicyMetrics (p : PrometheusLogger) (entry : LogEntry)
  : option PrometheusLogger :=
  let operation : string := EventType_ entry in
  let success := policySuccess entry in
  c ← Inc [operation; success] (policyOpsTotal p);
  h ← Observe [operation] (time.Seconds (Duration entry)) (policyOpsDuration p);
  g ← (if (RuleCount entry >? 0)%Z
       then Set_ [operation] (float64 (RuleCount entry)) (policyRulesCount p)
       else Some (policyRulesCount p));
  Some (with_policyOps c h g p).

(** [UpdatePolicyState]. *)
Definition UpdatePolicyState (p : PrometheusLogger) (ptype : string) (count : Z)
  : option PrometheusLogger :=
  g ← Set_ [ptype] (float64 count) (policyStateCount p);
  Some (with_policyStateCount g p).

(** The [switch] of [OnAfterEvent]: the first matching case runs, no
    case matching leaves the logger as it is. *)
Definition recordByEventType (K : EventKinds) (p : PrometheusLogger) (entry : LogEntry)
  : option PrometheusLogger :=
  let t := EventType_ entry in
  if (t =? EventEnforce K)%string then recordEnforceMetrics p entry
  else if (t =? EventAddPolicy K)%string || (t =? EventRemovePolicy K)%string
          || (t =? EventLoadPolicy K)%string || (t =? EventSavePolicy K)%string
  then recordPolicyMetrics p entry
  else Some p.

(** Each call of the callback is logged with the entry it was given and
    the logger (with its metrics) as it stood at that moment. *)
Record Invocation := {
  inv_entry : LogEntry;
  inv_logger : PrometheusLogger;
}.

Record AfterEvent := {
  ae_logger : PrometheusLogger;
  ae_entry : LogEntry;
  ae_calls : list Invocation;
  ae_result : error;
}.

(** [OnAfterEvent]; [now] is the reading of [time.Now()], [calls] the
    callback invocations so far.  [None] is a panic of the metrics
    library. *)
Definition OnAfterEvent (K : EventKinds) (p : PrometheusLogger) (now : time.Time)
    (entry : LogEntry) (calls : list Invocation) : option AfterEvent :=
  if negb (IsActive entry) then
    Some {| ae_logger := p; ae_entry := entry; ae_calls := calls; ae_result := None |}
  else
    let entry := set_EndTime now entry in
    let entry := set_Duration (time.Sub (EndTime entry) (StartTime entry)) entry in
    p' ← recordByEventType K p entry;
    match callback p with
    | Some cb =>
        let '(entry', err) := cb entry in
        Some {| ae_logger := p'; ae_entry := entry';
                ae_calls := (calls ++ [{| inv_entry := entry; inv_logger := p' |}])%list;
                ae_result := err |}
    | None =>
        Some {| ae_logger := p'; ae_entry := entry; ae_calls := calls;
                ae_result := None |}
    end.

(** [UnregisterFrom]: six calls of [Unregister], each one made whatever
    the earlier ones returned, their results combined with [&&]. *)
Definition UnregisterFrom (p : PrometheusLogger) (registry : Registry)
  : bool * Registry :=
  let result := true in
  let '(b, registry) := Unregister (desc (enforceDuration p)) registry in
  let result := b && result in
  let '(b, registry) := Unregister (desc (enforceTotal p)) registry in
  let result := b && result in
  let '(b, registry) := Unregister (desc (policyOpsTotal p)) registry in
  let result := b && result in
  let '(b, registry) := Unregister (desc (policyOpsDuration p)) registry in
  let result := b && result in
  let '(b, registry) := Unregister (desc (policyRulesCount p)) registry in
  let result := b && result in
  let '(b, registry) := Unregister (desc (policyStateCount p)) registry in
  let result := b && result in
  (result, registry).

(** [Unregister]: the same against the default registry, results dropped. *)
Definition Unregister_ (p : PrometheusLogger) (DefaultRegisterer : Registry) : Registry :=
  foldl (λ r d, (Unregister d r).2) DefaultRegisterer (collectors p).

(* ===================================================================== *)
(** ** Notions used by the statements *)
(* ===================================================================== *)

(** The entry as [OnAfterEvent] stamps it before it records anything. *)
Definition stamped (now : time.Time) (entry : LogEntry) : LogEntry :=
  set_Duration (time.Sub now (StartTime entry)) (set_EndTime now entry).

(** The six metric families of a logger. *)
Definition metricsOf (p : PrometheusLogger) :=
  (enforceDuration p, enforceTotal p, policyOpsTotal p,
   policyOpsDuration p, policyRulesCount p, policyStateCount p).

(** The enabled event-type set, and the event filter in the words of the
    specification: a type is admitted when the set is empty or holds it. *)
Definition enabledSet (p : PrometheusLogger) : gset EventType :=
  dom (enabledEventTypes p).

Definition passes (p : PrometheusLogger) (kind : EventType) : Prop :=
  enabledSet p = ∅ ∨ kind ∈ enabledSet p.

(** What holds of every logger the package can produce: its six
    descriptors are the ones the constructor builds from its label list,
    its event-type map only stores [true], and the two enforce families
    have children at the same label vectors. *)
Record logger_wf (p : PrometheusLogger) : Prop := {
  wf_collectors : collectors p = collectors (newLogger (enforceLabels p));
  wf_enabled : map_Forall (λ _ b, b = true) (enabledEventTypes p);
  wf_aligned : dom (metrics (enforceTotal p)) = dom (metrics (enforceDuration p));
}.

(** [v'] is [v] with the child at [lvs] changed by [update] and nothing
    else touched. *)
Definition updated_at {V : Type} (zero : V) (lvs : list string) (update : V → V)
    (v v' : MetricVec V) : Prop :=
  desc v' = desc v
  ∧ child zero v' lvs = update (child zero v lvs)
  ∧ ∀ lvs', lvs' ≠ lvs → metrics v' !! lvs' = metrics v !! lvs'.

(** The names of a logger's six families. *)
Definition familyNames (p : PrometheusLogger) : list string :=
  fqName <$> collectors p.

(** What [OnAfterEvent] does with an active entry, once the recording
    step is known. *)
Definition afterCallback (p p' : PrometheusLogger) (entry : LogEntry)
    (calls : list Invocation) : AfterEvent :=
  match callback p with
  | Some cb =>
      {| ae_logger := p'; ae_entry := (cb entry).1;
         ae_calls := (calls ++ [{| inv_entry := entry; inv_logger := p' |}])%list;
         ae_result := (cb entry).2 |}
  | None =>
      {| ae_logger := p'; ae_entry := entry; ae_calls := calls; ae_result := None |}
  end.

(** The conditions under which a list of descriptors registers without a
    panic: each is valid, no name occurs twice, none is registered yet,
    and no name has a different dimension on record. *)
Definition registrable (ds : list Desc) (r : Registry) : Prop :=
  Forall (λ d, Desc_valid d = true) ds
  ∧ NoDup (fqName <$> ds)
  ∧ (∀ d, d ∈ ds → fqName d ∉ collectorsByID r)
  ∧ (∀ d dim, d ∈ ds → dimHashesByName r !! fqName d = Some dim → dim = Desc_dim d).


(** The access decisions of the long-running simulation.  [draw] is the
    value [rng.Float32()] returns where the code asks for one, a number
    from 0 up to but not including 1; [below draw c] is [draw < c].  The
    comparison is between [float32] values: the thresholds 0.1, 0.2 and
    0.3 become [float32] values just above them, which no draw can lie
    under without lying under the decimal too, while 0.7 becomes
    11744051/16777216, just below it. *)
Definition below (draw c : Q) : bool := negb (Qle_bool c draw).

Definition determineRBACAccess (user resource action : string) (draw : Q) : bool :=
  if (user =? "alice")%string then true
  else if (user =? "bob")%string then
    (action =? "read")%string || (action =? "write")%string
  else if (user =? "charlie")%string then (action =? "read")%string
  else if (user =? "david")%string then
    (action =? "read")%string && (resource =? "project1")%string
  else if (user =? "eve")%string then below draw (3 # 10)
  else false.

Definition determineABACAccess (clearance : Z) (department : string)
    (classification : Z) (ownerDept action : string) (draw : Q) : bool :=
  if (clearance <? classification)%Z then false
  else if ((action =? "write")%string || (action =? "delete")%string)
          && negb (department =? ownerDept)%string then false
  else if (department =? "guest")%string then below draw (2 # 10)
  else if (department =? "hr")%string && (ownerDept =? "hr")%string then true
  else true.

Definition determineReBACAccess (subject subjectOrg resourceOwner resourceOrg : string)
    (isPublic : bool) (action : string) (draw : Q) : bool :=
  if (subject =? resourceOwner)%string then true
  else if isPublic && (action =? "read")%string then true
  else if (subjectOrg =? resourceOrg)%string && (action =? "read")%string then true
  else if (subjectOrg =? resourceOrg)%string && (action =? "share")%string then
    below draw (11744051 # 16777216)
  else if negb (subjectOrg =? resourceOrg)%string then below draw (1 # 10)
  else false.

(** The event constants are valid UTF-8, as identifiers are. *)
Definition kinds_utf8 (K : EventKinds) : Prop :=
  validLabelValues (EventEnforce K :: policyKinds K) = true.

(** The label values [OnAfterEvent] hands to the metrics library for an
    entry: the projected vector for an Enforce entry, the operation and
    the success flag for a policy operation, none otherwise. *)
Definition recordedLabelValues (K : EventKinds) (p : PrometheusLogger)
    (entry : LogEntry) : list string :=
  let t := EventType_ entry in
  if (t =? EventEnforce K)%string then enforceLabelValues (enforceLabels p) entry
  else if (t =? EventAddPolicy K)%string || (t =? EventRemovePolicy K)%string
          || (t =? EventLoadPolicy K)%string || (t =? EventSavePolicy K)%string
  then [t; policySuccess entry]
  else [].

(** An entry whose domain is the single byte FF, which is not UTF-8. *)
Definition sampleBadDomain : LogEntry :=
  {| IsActive := true; EventType_ := "enforce"; StartTime := 100%Z;
     EndTime := 0%Z; Duration := 0%Z; Subject := "alice"; Object := "data1";
     Action := "read"; Domain := String (Ascii.ascii_of_nat 255) EmptyString;
     Allowed := true;
     RuleCount := 0%Z; Error := None |}.


(** The closed list of optional enforce labels. *)
Definition optionalLabels : list string := ["subject"; "object"; "action"].

(** The label projector in the words of the specification: one value per
    configured name.  A name outside the five known ones has no rule; its
    position keeps the empty string the slice was made with. *)
Definition specLabelValue (entry : LogEntry) (name : string) : string :=
  if decide (name = "allowed") then (if Allowed entry then "true" else "false")
  else if decide (name = "domain") then
         (if decide (Domain entry = "") then "default" else Domain entry)
  else if decide (name = "subject") then Subject entry
  else if decide (name = "object") then Object entry
  else if decide (name = "action") then Action entry
  else "".

(** Sample values. *)
Definition sampleEnforce : LogEntry :=
  {| IsActive := true; EventType_ := "enforce"; StartTime := 100%Z;
     EndTime := 0%Z; Duration := 0%Z; Subject := "alice"; Object := "data1";
     Action := "read"; Domain := ""; Allowed := true; RuleCount := 0%Z;
     Error := None |}.

Definition sampleAddPolicy : LogEntry :=
  {| IsActive := true; EventType_ := "addPolicy"; StartTime := 100%Z;
     EndTime := 0%Z; Duration := 0%Z; Subject := ""; Object := "";
     Action := ""; Domain := ""; Allowed := false; RuleCount := 5%Z;
     Error := Some "test error" |}.

Definition sampleOther : LogEntry :=
  {| IsActive := true; EventType_ := "reload"; StartTime := 100%Z;
     EndTime := 0%Z; Duration := 0%Z; Subject := ""; Object := "";
     Action := ""; Domain := ""; Allowed := false; RuleCount := 0%Z;
     Error := None |}.

Definition sampleOptions : PrometheusLoggerOptions :=
  {| EnforceLabels := ["subject"; "bogus"; "object"] |}.

Definition sampleLogger : PrometheusLogger :=
  newLogger (buildEnforceLabels (EnforceLabels sampleOptions)).

Definition failingCallback : Callback :=
  λ entry, (entry, Some "callback error").

(* ===================================================================== *)
(** ** The enforce label list and the label projector *)
(* ===================================================================== *)

Lemma isOptionalLabel_elem_of (label : string) :
  isOptionalLabel label = true ↔ label ∈ optionalLabels.
Proof.
  unfold isOptionalLabel, optionalLabels.
  rewrite !orb_true_iff, !String.eqb_eq, !elem_of_cons, elem_of_nil.
  tauto.
Qed.

Lemma buildEnforceLabels_from (supplied acc : list string) :
  foldl (λ enforceLabels label,
           if isOptionalLabel label then (enforceLabels ++ [label])%list
           else enforceLabels) acc supplied
  = (acc ++ filter (λ label, label ∈ optionalLabels) supplied)%list.
Proof.
  revert acc. induction supplied as [|label supplied IH]; intros acc; simpl.
  - by rewrite app_nil_r.
  - rewrite IH. destruct (isOptionalLabel label) eqn:Hl.
    + apply isOptionalLabel_elem_of in Hl.
      rewrite filter_cons_True by done. by rewrite <- app_assoc.
    + rewrite filter_cons_False; [done|].
      intros Hin. apply isOptionalLabel_elem_of in Hin. congruence.
Qed.

Lemma buildEnforceLabels_filter (supplied : list string) :
  buildEnforceLabels supplied
  = "allowed" :: "domain" :: filter (λ label, label ∈ optionalLabels) supplied.
Proof. unfold buildEnforceLabels. by rewrite buildEnforceLabels_from. Qed.

Lemma buildEnforceLabels_NoDup (supplied : list string) :
  NoDup (buildEnforceLabels supplied)
  ↔ NoDup (filter (λ label, label ∈ optionalLabels) supplied).
Proof.
  rewrite buildEnforceLabels_filter.
  assert (∀ name, name ∉ optionalLabels →
            name ∉ filter (λ label, label ∈ optionalLabels) supplied) as Hout.
  { intros name Hn Hin. apply list_elem_of_filter in Hin as [Hin _]. done. }
  rewrite !NoDup_cons. split; [tauto|]. intros Hnd.
  split; [|split; [|done]].
  - rewrite not_elem_of_cons. split; [done|].
    apply Hout. unfold optionalLabels. by rewrite !elem_of_cons, elem_of_nil; intuition.
  - apply Hout. unfold optionalLabels. by rewrite !elem_of_cons, elem_of_nil; intuition.
Qed.

(** One step of the filling loop, at the position right after [done]. *)
Lemma fillLabelValue_next (entry : LogEntry) (done rest : list string) (label : string) :
  fillLabelValue (enforceAllowed entry) (enforceDomain entry) entry
    (done ++ "" :: rest)%list (length done, label)
  = ((done ++ [specLabelValue entry label]) ++ rest)%list.
Proof.
  assert (Hins : ∀ v : string,
    <[length done := v]> (done ++ "" :: rest)%list = ((done ++ [v]) ++ rest)%list).
  { intros v. rewrite <- (Nat.add_0_r (length done)), insert_app_r.
    simpl. by rewrite <- app_assoc. }
  unfold fillLabelValue, specLabelValue, enforceAllowed, enforceDomain.
  repeat match goal with
  | |- context [String.eqb ?a ?b] =>
      destruct (String.eqb_spec a b); [subst|]
  | |- context [decide (?a = ?b)] => destruct (decide (a = b)); try congruence
  end; rewrite ?Hins; try done.
  by rewrite <- app_assoc.
Qed.

Lemma enforceLabelValues_from (entry : LogEntry) (labels done : list string) :
  foldl (fillLabelValue (enforceAllowed entry) (enforceDomain entry) entry)
        (done ++ replicate (length labels) "")%list
        (imap (λ i label, (length done + i, label)) labels)
  = (done ++ map (specLabelValue entry) labels)%list.
Proof.
  revert done. induction labels as [|label labels IH]; intros done.
  - done.
  - cbn [length replicate imap foldl].
    rewrite Nat.add_0_r, fillLabelValue_next.
    rewrite (imap_ext _ (λ i l, (length (done ++ [specLabelValue entry label]) + i, l))).
    + rewrite IH. by rewrite <- app_assoc.
    + intros i l _. simpl. rewrite length_app. simpl. f_equal. lia.
Qed.

Lemma enforceLabelValues_map (labels : list string) (entry : LogEntry) :
  enforceLabelValues labels entry = map (specLabelValue entry) labels.
Proof.
  unfold enforceLabelValues.
  exact (enforceLabelValues_from entry labels []).
Qed.

Lemma enforceLabelValues_length (labels : list string) (entry : LogEntry) :
  length (enforceLabelValues labels entry) = length labels.
Proof. by rewrite enforceLabelValues_map, length_map. Qed.

Lemma enforceLabelValues_stamped (labels : list string) now (entry : LogEntry) :
  enforceLabelValues labels (stamped now entry) = enforceLabelValues labels entry.
Proof. by rewrite !enforceLabelValues_map. Qed.

(* ===================================================================== *)
(** ** Metric vectors *)
(* ===================================================================== *)

Lemma WithLabelValues_Some {V : Type} (zero : V) lvs (update : V → V) (v : MetricVec V) :
  length lvs = length (variableLabels (desc v)) → validLabelValues lvs = true →
  WithLabelValues zero lvs update v
  = Some {| desc := desc v;
            metrics := <[lvs := update (child zero v lvs)]> (metrics v) |}.
Proof.
  intros Hlen Hval. unfold WithLabelValues.
  by rewrite bool_decide_eq_true_2, Hval.
Qed.

Lemma WithLabelValues_invalid {V : Type} (zero : V) lvs (update : V → V)
    (v : MetricVec V) :
  validLabelValues lvs = false → WithLabelValues zero lvs update v = None.
Proof. intros Hval. unfold WithLabelValues. by rewrite Hval, andb_false_r. Qed.

Lemma WithLabelValues_inv {V : Type} (zero : V) lvs (update : V → V) (v v' : MetricVec V) :
  WithLabelValues zero lvs update v = Some v' →
  v' = {| desc := desc v;
          metrics := <[lvs := update (child zero v lvs)]> (metrics v) |}.
Proof. unfold WithLabelValues. destruct (_ && _); congruence. Qed.

Lemma updated_at_insert {V : Type} (zero : V) lvs (update : V → V) (v : MetricVec V) :
  updated_at zero lvs update v
    {| desc := desc v;
       metrics := <[lvs := update (child zero v lvs)]> (metrics v) |}.
Proof.
  unfold updated_at, child; simpl. split; [done|]. split.
  - by rewrite lookup_insert_eq.
  - intros lvs' Hne. by rewrite lookup_insert_ne.
Qed.

Lemma WithLabelValues_updated_at {V : Type} (zero : V) lvs (update : V → V)
    (v v' : MetricVec V) :
  WithLabelValues zero lvs update v = Some v' → updated_at zero lvs update v v'.
Proof. intros ->%WithLabelValues_inv. apply updated_at_insert. Qed.

Lemma WithLabelValues_dom {V : Type} (zero : V) lvs (update : V → V)
    (v v' : MetricVec V) :
  WithLabelValues zero lvs update v = Some v' →
  dom (metrics v') = {[lvs]} ∪ dom (metrics v).
Proof. intros ->%WithLabelValues_inv. simpl. by rewrite dom_insert_L. Qed.

Lemma WithLabelValues_desc {V : Type} (zero : V) lvs (update : V → V)
    (v v' : MetricVec V) :
  WithLabelValues zero lvs update v = Some v' → desc v' = desc v.
Proof. by intros ->%WithLabelValues_inv. Qed.

(* ===================================================================== *)
(** ** The invariant of the logger *)
(* ===================================================================== *)

Lemma logger_wf_labels (p : PrometheusLogger) :
  logger_wf p →
  variableLabels (desc (enforceDuration p)) = enforceLabels p
  ∧ variableLabels (desc (enforceTotal p)) = enforceLabels p
  ∧ variableLabels (desc (policyOpsTotal p)) = ["operation"; "success"]
  ∧ variableLabels (desc (policyOpsDuration p)) = ["operation"]
  ∧ variableLabels (desc (policyRulesCount p)) = ["operation"]
  ∧ variableLabels (desc (policyStateCount p)) = ["ptype"].
Proof.
  intros [Hc _ _]. unfold collectors in Hc. simpl in Hc.
  injection Hc as -> -> -> -> -> ->. done.
Qed.

Lemma newLogger_wf (labels : list string) : logger_wf (newLogger labels).
Proof.
  split; simpl.
  - done.
  - apply map_Forall_empty.
  - done.
Qed.

Lemma NewPrometheusLoggerWithOptions_inv registry options dr r p :
  NewPrometheusLoggerWithOptions registry options dr = (r, Some p) →
  p = newLogger (buildEnforceLabels (EnforceLabels (default {| EnforceLabels := [] |} options)))
  ∧ MustRegister (collectors p) (default dr registry) = (r, Returned).
Proof.
  unfold NewPrometheusLoggerWithOptions. cbv zeta.
  destruct (MustRegister _ _) as [r' []] eqn:Hreg; intros [= <- <-]; done.
Qed.

Lemma NewPrometheusLoggerWithOptions_Returned registry options dr r :
  let p := newLogger (buildEnforceLabels
                        (EnforceLabels (default {| EnforceLabels := [] |} options))) in
  MustRegister (collectors p) (default dr registry) = (r, Returned) →
  NewPrometheusLoggerWithOptions registry options dr = (r, Some p).
Proof.
  intros p Hreg. unfold NewPrometheusLoggerWithOptions. cbv zeta.
  fold p. by rewrite Hreg.
Qed.

Lemma NewPrometheusLoggerWithOptions_wf registry options dr r p :
  NewPrometheusLoggerWithOptions registry options dr = (r, Some p) → logger_wf p.
Proof.
  intros [-> _]%NewPrometheusLoggerWithOptions_inv. apply newLogger_wf.
Qed.

Lemma SetEventTypes_enabled (eventTypes : list EventType) (m : gmap EventType bool) :
  map_Forall (λ _ b, b = true) m →
  map_Forall (λ _ b, b = true) (foldl (λ m eventType, <[eventType := true]> m) m eventTypes).
Proof.
  revert m. induction eventTypes as [|t ts IH]; intros m Hm; simpl; [done|].
  apply IH. by apply map_Forall_insert_2.
Qed.

Lemma SetEventTypes_wf p eventTypes :
  logger_wf p → logger_wf (SetEventTypes p eventTypes).1.
Proof.
  intros [Hc He Ha]. split; simpl; [done| |done].
  apply SetEventTypes_enabled, map_Forall_empty.
Qed.

Lemma SetLogCallback_wf p cb : logger_wf p → logger_wf (SetLogCallback p cb).1.
Proof. intros [Hc He Ha]. by split. Qed.

(* ===================================================================== *)
(** ** Recording *)
(* ===================================================================== *)

Lemma recordEnforceMetrics_Some p entry :
  logger_wf p →
  let lvs := enforceLabelValues (enforceLabels p) entry in
  validLabelValues lvs = true →
  ∃ h c,
    Observe lvs (time.Seconds (Duration entry)) (enforceDuration p) = Some h
    ∧ Inc lvs (enforceTotal p) = Some c
    ∧ recordEnforceMetrics p entry = Some (with_enforce h c p).
Proof.
  intros Hwf lvs Hval. destruct (logger_wf_labels p Hwf) as (Hd & Ht & _).
  unfold recordEnforceMetrics, Observe, Inc. fold lvs.
  rewrite !WithLabelValues_Some
    by (try done; subst lvs; rewrite enforceLabelValues_length; congruence).
  eexists _, _. by repeat split.
Qed.

Lemma recordEnforceMetrics_invalid p entry :
  validLabelValues (enforceLabelValues (enforceLabels p) entry) = false →
  recordEnforceMetrics p entry = None.
Proof.
  intros Hval. unfold recordEnforceMetrics, Observe.
  by rewrite WithLabelValues_invalid.
Qed.

Lemma recordEnforceMetrics_inv p entry p' :
  recordEnforceMetrics p entry = Some p' →
  let lvs := enforceLabelValues (enforceLabels p) entry in
  ∃ h c,
    Observe lvs (time.Seconds (Duration entry)) (enforceDuration p) = Some h
    ∧ Inc lvs (enforceTotal p) = Some c
    ∧ p' = with_enforce h c p.
Proof.
  intros Hrec. cbv zeta. unfold recordEnforceMetrics in Hrec. cbv zeta in Hrec.
  destruct (Observe _ _ _) as [h|]; simpl in Hrec; [|done].
  destruct (Inc _ _) as [c|]; simpl in Hrec; [|done].
  injection Hrec as <-. by eexists _, _.
Qed.

Lemma validLabelValues_policy (operation success : string) :
  utf8.ValidString operation = true → utf8.ValidString success = true →
  validLabelValues [operation; success] = true ∧ validLabelValues [operation] = true.
Proof. intros Ho Hs. unfold validLabelValues. simpl. by rewrite Ho, Hs. Qed.

Lemma policySuccess_valid entry : utf8.ValidString (policySuccess entry) = true.
Proof. unfold policySuccess. by destruct (Error entry). Qed.

Lemma recordPolicyMetrics_Some p entry :
  logger_wf p → utf8.ValidString (EventType_ entry) = true →
  let operation : string := EventType_ entry in
  ∃ c h g,
    Inc [operation; policySuccess entry] (policyOpsTotal p) = Some c
    ∧ Observe [operation] (time.Seconds (Duration entry)) (policyOpsDuration p) = Some h
    ∧ (if (RuleCount entry >? 0)%Z
       then Set_ [operation] (float64 (RuleCount entry)) (policyRulesCount p)
       else Some (policyRulesCount p)) = Some g
    ∧ recordPolicyMetrics p entry = Some (with_policyOps c h g p).
Proof.
  intros Hwf Hval operation.
  destruct (logger_wf_labels p Hwf) as (_ & _ & Hc & Hh & Hg & _).
  destruct (validLabelValues_policy operation (policySuccess entry) Hval
              (policySuccess_valid entry)) as [Hv2 Hv1].
  unfold recordPolicyMetrics, Observe, Inc, Set_. fold operation.
  rewrite !WithLabelValues_Some by (by rewrite ?Hc, ?Hh, ?Hg).
  destruct (RuleCount entry >? 0)%Z; eexists _, _, _; by repeat split.
Qed.

Lemma recordPolicyMetrics_invalid p entry :
  utf8.ValidString (EventType_ entry) = false → recordPolicyMetrics p entry = None.
Proof.
  intros Hval. unfold recordPolicyMetrics, Inc.
  rewrite WithLabelValues_invalid; [done|].
  unfold validLabelValues. simpl. by rewrite Hval.
Qed.

Lemma recordPolicyMetrics_inv p entry p' :
  recordPolicyMetrics p entry = Some p' →
  let operation : string := EventType_ entry in
  ∃ c h g,
    Inc [operation; policySuccess entry] (policyOpsTotal p) = Some c
    ∧ Observe [operation] (time.Seconds (Duration entry)) (policyOpsDuration p) = Some h
    ∧ (if (RuleCount entry >? 0)%Z
       then Set_ [operation] (float64 (RuleCount entry)) (policyRulesCount p)
       else Some (policyRulesCount p)) = Some g
    ∧ p' = with_policyOps c h g p.
Proof.
  intros Hrec. cbv zeta. unfold recordPolicyMetrics in Hrec. cbv zeta in Hrec.
  destruct (Inc _ _) as [c|]; simpl in Hrec; [|done].
  destruct (Observe _ _ _) as [h|]; simpl in Hrec; [|done].
  destruct (if (RuleCount entry >? 0)%Z then _ else _) as [g|] eqn:Hg;
    simpl in Hrec; [|done].
  injection Hrec as <-. by eexists _, _, _.
Qed.

Lemma recordEnforceMetrics_wf p entry p' :
  logger_wf p → recordEnforceMetrics p entry = Some p' → logger_wf p'.
Proof.
  intros Hwf Hrec.
  destruct (recordEnforceMetrics_inv p entry p' Hrec) as (h & c & Hh & Hc & ->).
  destruct Hwf as [Hcol Hen Hal]. split; simpl; [|done|].
  - unfold collectors in *. simpl in *.
    rewrite (WithLabelValues_desc _ _ _ _ _ Hh), (WithLabelValues_desc _ _ _ _ _ Hc).
    done.
  - rewrite (WithLabelValues_dom _ _ _ _ _ Hh), (WithLabelValues_dom _ _ _ _ _ Hc).
    by rewrite Hal.
Qed.

Lemma recordPolicyMetrics_wf p entry p' :
  logger_wf p → recordPolicyMetrics p entry = Some p' → logger_wf p'.
Proof.
  intros Hwf Hrec.
  destruct (recordPolicyMetrics_inv p entry p' Hrec) as (c & h & g & Hc & Hh & Hg & ->).
  assert (desc g = desc (policyRulesCount p)) as Hdg.
  { destruct (RuleCount entry >? 0)%Z.
    - by apply WithLabelValues_desc in Hg.
    - by injection Hg as <-. }
  destruct Hwf as [Hcol Hen Hal]. split; simpl; [|done|done].
  unfold collectors in *. simpl in *.
  rewrite (WithLabelValues_desc _ _ _ _ _ Hh), (WithLabelValues_desc _ _ _ _ _ Hc), Hdg.
  done.
Qed.

(** The label values of an entry do not depend on its time fields. *)
Lemma recordedLabelValues_stamped K p now entry :
  recordedLabelValues K p (stamped now entry) = recordedLabelValues K p entry.
Proof.
  unfold recordedLabelValues. simpl. by rewrite enforceLabelValues_stamped.
Qed.

Lemma recordByEventType_Some K p entry :
  logger_wf p → validLabelValues (recordedLabelValues K p entry) = true →
  ∃ p', recordByEventType K p entry = Some p'
        ∧ logger_wf p' ∧ callback p' = callback p
        ∧ enabledEventTypes p' = enabledEventTypes p
        ∧ enforceLabels p' = enforceLabels p.
Proof.
  intros Hwf. unfold recordByEventType, recordedLabelValues.
  destruct (_ =? EventEnforce K)%string.
  - intros Hval.
    destruct (recordEnforceMetrics_Some p entry Hwf Hval) as (h & c & _ & _ & Heq).
    eexists. split; [exact Heq|]. split; [|done].
    by eapply recordEnforceMetrics_wf.
  - destruct (_ || _).
    + intros Hval. unfold validLabelValues in Hval. simpl in Hval.
      apply andb_true_iff in Hval as [Hval _].
      destruct (recordPolicyMetrics_Some p entry Hwf Hval)
        as (c & h & g & _ & _ & _ & Heq).
      eexists. split; [exact Heq|]. split; [|done].
      by eapply recordPolicyMetrics_wf.
    + intros _. by exists p.
Qed.

Lemma recordByEventType_invalid K p entry :
  validLabelValues (recordedLabelValues K p entry) = false →
  recordByEventType K p entry = None.
Proof.
  unfold recordByEventType, recordedLabelValues.
  destruct (_ =? EventEnforce K)%string.
  - apply recordEnforceMetrics_invalid.
  - destruct (_ || _); [|done].
    intros Hval. apply recordPolicyMetrics_invalid.
    unfold validLabelValues in Hval. simpl in Hval.
    rewrite policySuccess_valid in Hval. simpl in Hval.
    by rewrite andb_true_r in Hval.
Qed.

Lemma UpdatePolicyState_wf p ptype count :
  logger_wf p → utf8.ValidString ptype = true →
  ∃ p', UpdatePolicyState p ptype count = Some p' ∧ logger_wf p'.
Proof.
  intros Hwf Hval. destruct (logger_wf_labels p Hwf) as (_ & _ & _ & _ & _ & Hs).
  unfold UpdatePolicyState, Set_.
  rewrite WithLabelValues_Some
    by (by rewrite ?Hs; unfold validLabelValues; simpl; rewrite ?Hval).
  eexists. split; [done|].
  destruct Hwf as [Hcol Hen Hal]. by split.
Qed.


(* ===================================================================== *)
(** ** The before hook *)
(* ===================================================================== *)

Lemma enabledSet_empty p :
  (0 <? size (enabledEventTypes p)) = false ↔ enabledSet p = ∅.
Proof.
  unfold enabledSet. rewrite Nat.ltb_ge, dom_empty_iff_L, <- map_size_empty_iff. lia.
Qed.

Lemma enabled_elem_of p kind :
  logger_wf p → enabled p kind = true ↔ kind ∈ enabledSet p.
Proof.
  intros [_ Hen _]. unfold enabled, enabledSet. rewrite elem_of_dom. split.
  - destruct (enabledEventTypes p !! kind) eqn:Hk; simpl; [eauto|done].
  - intros [b Hb]. rewrite Hb. simpl. by apply (Hen kind b).
Qed.

Lemma OnBeforeEvent_rejects p (entry : LogEntry) :
  logger_wf p →
  ((0 <? size (enabledEventTypes p)) && negb (enabled p (EventType_ entry))) = false
  ↔ passes p (EventType_ entry).
Proof.
  intros Hwf. unfold passes.
  rewrite andb_false_iff, negb_false_iff, enabledSet_empty, enabled_elem_of by done.
  done.
Qed.

(** C1.  [OnBeforeEvent] admits an entry exactly when the enabled
    event-type set is empty or holds the entry's event type.  An admitted
    entry gets [IsActive = true] and [StartTime = now]; a rejected one
    gets [IsActive = false] and keeps its [StartTime]; no other field
    changes.  The call always returns nil. *)
Theorem OnBeforeEvent_filter p now entry :
  logger_wf p →
  ∃ entry',
    OnBeforeEvent p now entry = (entry', None)
    ∧ (passes p (EventType_ entry) ↔ IsActive entry' = true)
    ∧ (passes p (EventType_ entry) →
         IsActive entry' = true ∧ StartTime entry' = now
         ∧ entry' = set_StartTime now (set_IsActive true entry))
    ∧ (¬ passes p (EventType_ entry) →
         IsActive entry' = false ∧ StartTime entry' = StartTime entry
         ∧ entry' = set_IsActive false entry).
Proof.
  intros Hwf. pose proof (OnBeforeEvent_rejects p entry Hwf) as Hrej.
  unfold OnBeforeEvent.
  destruct (_ && _); eexists; (split; [reflexivity|]); simpl.
  - assert (¬ passes p (EventType_ entry)) as Hn by (rewrite <- Hrej; done).
    split; [split; [tauto|done]|]. split; [tauto|done].
  - assert (passes p (EventType_ entry)) as Hy by (by apply Hrej).
    split; [done|]. split; [done|tauto].
Qed.

Lemma OnBeforeEvent_filter_witness :
  let p := (SetEventTypes sampleLogger ["enforce"]).1 in
  logger_wf p
  ∧ ∃ entry', OnBeforeEvent p 7%Z sampleEnforce = (entry', None)
              ∧ IsActive entry' = true ∧ StartTime entry' = 7%Z.
Proof.
  intros p.
  assert (logger_wf p) as Hwf by apply SetEventTypes_wf, newLogger_wf.
  split; [exact Hwf|].
  destruct (OnBeforeEvent_filter p 7%Z sampleEnforce Hwf) as (e1 & Heq & _ & Hadm & _).
  exists e1. split; [exact Heq|].
  assert (passes p (EventType_ sampleEnforce)) as Ha.
  { right. apply (bool_decide_unpack _). vm_compute. exact I. }
  destruct (Hadm Ha) as (? & ? & _). split; assumption.
Defined.

(* ===================================================================== *)
(** ** The after hook *)
(* ===================================================================== *)

(** C2.  On an entry with [IsActive = false], [OnAfterEvent] returns nil
    and changes nothing: the logger with its six metric families, the
    entry and the list of callback invocations are as before, whatever
    the event type and the other fields. *)
Theorem OnAfterEvent_inactive K p now entry calls :
  IsActive entry = false →
  OnAfterEvent K p now entry calls
  = Some {| ae_logger := p; ae_entry := entry; ae_calls := calls;
            ae_result := None |}.
Proof. intros Hin. unfold OnAfterEvent. by rewrite Hin. Qed.

Lemma OnAfterEvent_inactive_witness :
  let p := (SetLogCallback sampleLogger (Some failingCallback)).1 in
  let entry := set_IsActive false sampleEnforce in
  IsActive entry = false
  ∧ OnAfterEvent casbinKinds p 150%Z entry []
    = Some {| ae_logger := p; ae_entry := entry; ae_calls := [];
              ae_result := None |}.
Proof.
  intros p entry.
  assert (IsActive entry = false) as Hin by reflexivity.
  split; [exact Hin|].
  exact (OnAfterEvent_inactive casbinKinds p 150%Z entry [] Hin).
Defined.

Lemma OnAfterEvent_active K p now entry calls :
  IsActive entry = true →
  OnAfterEvent K p now entry calls
  = p' ← recordByEventType K p (stamped now entry);
    Some (afterCallback p p' (stamped now entry) calls).
Proof.
  intros Hact. unfold OnAfterEvent, afterCallback. rewrite Hact. simpl.
  fold (stamped now entry).
  destruct (recordByEventType K p (stamped now entry)) as [p'|]; simpl; [|done].
  destruct (callback p) as [cb|]; [|done]. by destruct (cb _).
Qed.

Lemma afterCallback_logger p p' entry calls :
  ae_logger (afterCallback p p' entry calls) = p'.
Proof. unfold afterCallback. by destruct (callback p). Qed.

Lemma recordByEventType_Enforce K p entry :
  EventType_ entry = EventEnforce K →
  recordByEventType K p entry = recordEnforceMetrics p entry.
Proof. intros Ht. unfold recordByEventType. by rewrite Ht, String.eqb_refl. Qed.

(** C4.  The label projector gives one value per configured name, at the
    position of that name: "allowed" gives "true" or "false" after the
    entry's [Allowed], "domain" gives the entry's [Domain] with the empty
    string replaced by "default", and "subject", "object", "action" give
    the entry's field as it is, the empty string included.  Two entries
    that agree on these five resolved values project to the same vector. *)
Theorem enforceLabelValues_spec (labels : list string) (entry : LogEntry) :
  enforceLabelValues labels entry = map (specLabelValue entry) labels
  ∧ length (enforceLabelValues labels entry) = length labels
  ∧ (∀ i name, labels !! i = Some name →
       enforceLabelValues labels entry !! i = Some (specLabelValue entry name))
  ∧ (∀ entry',
       enforceAllowed entry' = enforceAllowed entry →
       enforceDomain entry' = enforceDomain entry →
       Subject entry' = Subject entry → Object entry' = Object entry →
       Action entry' = Action entry →
       enforceLabelValues labels entry' = enforceLabelValues labels entry).
Proof.
  split; [apply enforceLabelValues_map|].
  split; [apply enforceLabelValues_length|]. split.
  - intros i name Hi. rewrite enforceLabelValues_map, list_lookup_fmap, Hi. done.
  - intros entry' Ha Hd Hs Ho Hact. rewrite !enforceLabelValues_map.
    apply map_ext. intros name.
    unfold enforceAllowed, enforceDomain in *. unfold specLabelValue.
    rewrite Hs, Ho, Hact.
    repeat case_decide; try done;
      repeat match goal with
      | H : context [String.eqb ?a ?b] |- _ => destruct (String.eqb_spec a b)
      end; try done; try congruence;
      destruct (Allowed entry'), (Allowed entry); congruence.
Qed.

Lemma enforceLabelValues_spec_witness :
  enforceLabelValues ["allowed"; "domain"; "subject"] sampleEnforce !! 1 = Some "default"
  ∧ enforceLabelValues ["allowed"; "domain"; "subject"] sampleEnforce !! 2 = Some "alice".
Proof.
  destruct (enforceLabelValues_spec ["allowed"; "domain"; "subject"] sampleEnforce)
    as (_ & _ & Hpos & _).
  split.
  - exact (Hpos 1 "domain" eq_refl).
  - exact (Hpos 2 "subject" eq_refl).
Defined.

(* ===================================================================== *)
(** ** Registration *)
(* ===================================================================== *)

(** The order of label names is a total order, so sorting gives the same
    list for any two orders of the same labels. *)
Lemma String_compare_trans (s1 s2 s3 : string) (c : comparison) :
  c ≠ Eq → String.compare s1 s2 = c ∨ String.compare s1 s2 = Eq →
  String.compare s2 s3 = c ∨ String.compare s2 s3 = Eq →
  String.compare s1 s3 = c ∨ String.compare s1 s3 = Eq.
Proof.
  intros Hc. revert s2 s3.
  induction s1 as [|a1 s1 IH]; intros [|a2 s2] [|a3 s3]; simpl; try tauto;
    try (intros [?|?] [?|?]; subst; (tauto || congruence)).
  unfold Ascii.compare.
  destruct (N.compare_spec (Ascii.N_of_ascii a1) (Ascii.N_of_ascii a2)) as [H12|H12|H12];
    destruct (N.compare_spec (Ascii.N_of_ascii a2) (Ascii.N_of_ascii a3)) as [H23|H23|H23];
    destruct (N.compare_spec (Ascii.N_of_ascii a1) (Ascii.N_of_ascii a3)) as [H13|H13|H13];
    try lia; try tauto; try (by apply IH);
    intros [?|?] [?|?]; subst; try congruence; tauto.
Qed.

#[global] Instance labelNameLe_trans : Transitive labelNameLe.
Proof.
  intros s1 s2 s3. unfold labelNameLe, String.leb. intros H12 H23.
  destruct (String_compare_trans s1 s2 s3 Lt) as [H|H]; [done| | |by rewrite H..].
  - destruct (String.compare s1 s2); [by right|by left|done].
  - destruct (String.compare s2 s3); [by right|by left|done].
Qed.

#[global] Instance labelNameLe_antisym : AntiSymm (=) labelNameLe.
Proof. intros s1 s2. apply String.leb_antisym. Qed.

#[global] Instance labelNameLe_total : Total labelNameLe.
Proof. intros s1 s2. apply String.leb_total. Qed.



(** When a descriptor can be registered, and what the registry holds
    afterwards. *)
Lemma Register_Some_iff (d : Desc) (r : Registry) :
  is_Some (Register d r)
  ↔ Desc_valid d = true
    ∧ (fqName d ∉ collectorsByID r)
    ∧ (∀ dim, dimHashesByName r !! fqName d = Some dim → dim = Desc_dim d).
Proof.
  unfold Register. destruct (Desc_valid d); simpl.
  2: { split; intros H; destruct H; done. }
  case_bool_decide as Hin.
  { split; [by intros [? ?]|]. intros (_ & Hn & _). done. }
  destruct (dimHashesByName r !! fqName d) as [dim|] eqn:Hdim.
  - case_bool_decide as Heq.
    + split; [|by eauto]. intros _. repeat split; [done|]. congruence.
    + split; [by intros [? ?]|]. intros (_ & _ & Hd). by specialize (Hd dim eq_refl).
  - split; [|by eauto]. intros _. by repeat split.
Qed.

Lemma Register_inv (d : Desc) (r r' : Registry) :
  Register d r = Some r' →
  collectorsByID r' = {[fqName d]} ∪ collectorsByID r
  ∧ dimHashesByName r' = <[fqName d := Desc_dim d]> (dimHashesByName r).
Proof.
  unfold Register. destruct (negb _); [done|].
  case_bool_decide; [done|].
  destruct (dimHashesByName r !! fqName d) as [dim|] eqn:Hdim.
  - case_bool_decide as Heq; [|done]. intros [= <-]. simpl. split; [done|].
    subst dim. by rewrite insert_id.
  - by intros [= <-].
Qed.

Lemma MustRegister_Returned (ds : list Desc) (r : Registry) :
  registrable ds r →
  ∃ r', MustRegister ds r = (r', Returned)
        ∧ collectorsByID r' = list_to_set (fqName <$> ds) ∪ collectorsByID r.
Proof.
  revert r. induction ds as [|d ds IH]; intros r (Hv & Hnd & Hfree & Hdim).
  - exists r. split; [done|]. simpl. set_solver.
  - apply Forall_cons in Hv as [Hvd Hv].
    rewrite fmap_cons in Hnd. apply NoDup_cons in Hnd as [Hnin Hnd].
    assert (is_Some (Register d r)) as [r1 Hr1].
    { apply Register_Some_iff. split; [done|]. split.
      - apply Hfree. by left.
      - intros dim. apply Hdim. by left. }
    destruct (Register_inv _ _ _ Hr1) as [Hc1 Hd1].
    destruct (IH r1) as (r' & Hr' & Hc').
    { split; [done|]. split; [done|]. split.
      - intros d' Hd'. rewrite Hc1.
        assert (fqName d' ≠ fqName d).
        { intros Heq. apply Hnin. rewrite <- Heq. by apply list_elem_of_fmap_2. }
        assert (fqName d' ∉ collectorsByID r) by (apply Hfree; by right).
        set_solver.
      - intros d' dim Hd'. rewrite Hd1.
        assert (fqName d ≠ fqName d').
        { intros Heq. apply Hnin. rewrite Heq. by apply list_elem_of_fmap_2. }
        rewrite lookup_insert_ne by done. apply Hdim. by right. }
    exists r'. simpl. rewrite Hr1. split; [done|].
    rewrite Hc', Hc1. set_solver.
Qed.

Lemma MustRegister_inv (ds : list Desc) (r r' : Registry) :
  MustRegister ds r = (r', Returned) →
  Forall (λ d, Desc_valid d = true) ds
  ∧ collectorsByID r' = list_to_set (fqName <$> ds) ∪ collectorsByID r
  ∧ (∀ d, d ∈ ds → dimHashesByName r' !! fqName d = Some (Desc_dim d))
  ∧ (∀ name dim, dimHashesByName r !! name = Some dim →
       dimHashesByName r' !! name = Some dim).
Proof.
  revert r. induction ds as [|d ds IH]; intros r; simpl.
  - intros [= <-]. split; [done|]. split; [set_solver|]. split; [|done].
    intros d Hd. by apply elem_of_nil in Hd.
  - destruct (Register d r) as [r1|] eqn:Hr1; [|done]. intros Hrest.
    assert (is_Some (Register d r)) as Hsome by eauto.
    apply Register_Some_iff in Hsome as (Hvd & Hfree & Hdim).
    destruct (Register_inv _ _ _ Hr1) as [Hc1 Hd1].
    destruct (IH _ Hrest) as (Hv & Hc' & Hdims & Hkeep).
    split; [by constructor|]. split; [rewrite Hc', Hc1; set_solver|]. split.
    + intros d' [->|Hd']%elem_of_cons; [|by apply Hdims].
      apply Hkeep. rewrite Hd1. by rewrite lookup_insert_eq.
    + intros name dim Hn. apply Hkeep. rewrite Hd1.
      destruct (decide (fqName d = name)) as [<-|Hne].
      * rewrite lookup_insert_eq. f_equal. symmetry. by apply Hdim.
      * by rewrite lookup_insert_ne.
Qed.

(** [Unregister] removes the name and nothing else. *)
Lemma Unregister_spec (d : Desc) (r : Registry) :
  (Unregister d r).1 = bool_decide (fqName d ∈ collectorsByID r)
  ∧ collectorsByID (Unregister d r).2 = collectorsByID r ∖ {[fqName d]}
  ∧ dimHashesByName (Unregister d r).2 = dimHashesByName r.
Proof.
  unfold Unregister. case_bool_decide; simpl; [done|].
  split; [done|]. split; [set_solver|done].
Qed.


Lemma filter_optionalLabels_idemp (supplied : list string) :
  filter (λ label, label ∈ optionalLabels)
    (filter (λ label, label ∈ optionalLabels) supplied)
  = filter (λ label, label ∈ optionalLabels) supplied.
Proof.
  induction supplied as [|label supplied IH]; [done|].
  destruct (decide (label ∈ optionalLabels)) as [Hin|Hout].
  - rewrite (filter_cons_True _ label supplied) by done.
    rewrite filter_cons_True by done. by rewrite IH.
  - by rewrite (filter_cons_False _ label supplied).
Qed.

(** C5.  The logger a construction returns has "allowed" and "domain" as
    its first two enforce labels, followed by exactly the supplied names
    that are in the list subject, object, action, in the order supplied.
    A supplied name outside that list has no effect on the construction
    at all: the call ends as it does without that name, so such a name is
    never the cause of a failure.  With the labels subject, bogus, object
    the enforce labels are allowed, domain, subject, object. *)
Theorem NewPrometheusLoggerWithOptions_enforceLabels :
  (∀ registry options dr r p,
     NewPrometheusLoggerWithOptions registry options dr = (r, Some p) →
     enforceLabels p
     = "allowed" :: "domain"
         :: filter (λ label, label ∈ optionalLabels)
              (EnforceLabels (default {| EnforceLabels := [] |} options)))
  ∧ (∀ registry supplied dr,
       NewPrometheusLoggerWithOptions registry
         (Some {| EnforceLabels := supplied |}) dr
       = NewPrometheusLoggerWithOptions registry
           (Some {| EnforceLabels := filter (λ label, label ∈ optionalLabels) supplied |})
           dr)
  ∧ (∀ dr, ∃ r p,
       NewPrometheusLoggerWithOptions (Some NewRegistry)
         (Some {| EnforceLabels := ["subject"; "bogus"; "object"] |}) dr
       = (r, Some p)
       ∧ enforceLabels p = ["allowed"; "domain"; "subject"; "object"]).
Proof.
  split; [|split].
  - intros registry options dr r p [-> _]%NewPrometheusLoggerWithOptions_inv.
    simpl. apply buildEnforceLabels_filter.
  - intros registry supplied dr. unfold NewPrometheusLoggerWithOptions. simpl.
    by rewrite !buildEnforceLabels_filter, filter_optionalLabels_idemp.
  - intros dr.
    destruct (MustRegister_Returned
                (collectors (newLogger ["allowed"; "domain"; "subject"; "object"]))
                NewRegistry) as (r & Hr & _).
    { split; [|split; [|split]].
      - repeat constructor.
      - apply (bool_decide_unpack _). by vm_compute.
      - intros d _. simpl. set_solver.
      - intros d dim _. simpl. by rewrite lookup_empty. }
    exists r, (newLogger ["allowed"; "domain"; "subject"; "object"]).
    split; [|done].
    by apply (NewPrometheusLoggerWithOptions_Returned (Some NewRegistry)
                (Some {| EnforceLabels := ["subject"; "bogus"; "object"] |})).
Qed.

Lemma NewPrometheusLoggerWithOptions_enforceLabels_witness :
  ∃ r p,
    NewPrometheusLoggerWithOptions (Some NewRegistry) (Some sampleOptions) NewRegistry
    = (r, Some p)
    ∧ enforceLabels p
      = "allowed" :: "domain"
          :: filter (λ label, label ∈ optionalLabels) (EnforceLabels sampleOptions).
Proof.
  destruct (proj2 (proj2 NewPrometheusLoggerWithOptions_enforceLabels) NewRegistry)
    as (r & p & Hnew & _).
  exists r, p. split; [exact Hnew|].
  exact (proj1 NewPrometheusLoggerWithOptions_enforceLabels
           (Some NewRegistry) (Some sampleOptions) NewRegistry r p Hnew).
Defined.

(* ===================================================================== *)
(** ** Policy operations, the callback, and the duration *)
(* ===================================================================== *)

Lemma recordByEventType_policy K p entry :
  kinds_distinct K → EventType_ entry ∈ policyKinds K →
  recordByEventType K p entry = recordPolicyMetrics p entry.
Proof.
  intros Hnd Hin. unfold recordByEventType.
  apply NoDup_cons in Hnd as [Hne _].
  destruct (String.eqb_spec (EventType_ entry) (EventEnforce K)) as [Heq|_].
  { by rewrite Heq in Hin. }
  unfold policyKinds in Hin. rewrite !elem_of_cons, elem_of_nil in Hin.
  destruct Hin as [->|[->|[->|[->|[]]]]]; rewrite String.eqb_refl;
    by rewrite ?orb_true_r.
Qed.

Lemma kinds_utf8_policy K (kind : EventType) :
  kinds_utf8 K → kind ∈ policyKinds K → utf8.ValidString kind = true.
Proof.
  unfold kinds_utf8, validLabelValues. intros Hval Hin.
  rewrite forallb_forall in Hval. apply Hval, list_elem_of_In. by right.
Qed.

Lemma recordByEventType_unknown K p entry :
  EventType_ entry ∉ (EventEnforce K :: policyKinds K) →
  recordByEventType K p entry = Some p.
Proof.
  intros Hout. unfold recordByEventType, policyKinds in *.
  rewrite !not_elem_of_cons in Hout. destruct Hout as (H1 & H2 & H3 & H4 & H5 & _).
  apply String.eqb_neq in H1, H2, H3, H4, H5.
  by rewrite H1, H2, H3, H4, H5.
Qed.

Lemma recordByEventType_with_callback K cb p entry :
  recordByEventType K (with_callback cb p) entry
  = with_callback cb <$> recordByEventType K p entry.
Proof.
  unfold recordByEventType.
  destruct (_ =? EventEnforce K)%string; [|destruct (_ || _); [|done]].
  - unfold recordEnforceMetrics. simpl.
    destruct (Observe _ _ _); simpl; [|done]. by destruct (Inc _ _).
  - unfold recordPolicyMetrics. simpl.
    destruct (Inc _ _); simpl; [|done].
    destruct (Observe _ _ _); simpl; [|done].
    by destruct (if (RuleCount entry >? 0)%Z then _ else _).
Qed.

(** C6.  On an active entry of type AddPolicy, RemovePolicy, LoadPolicy
    or SavePolicy, [OnAfterEvent] adds one to the policy-operation
    counter at (operation, success), where operation is the event type as
    a string and success is "false" when the entry carries an error and
    "true" otherwise; it puts the seconds of the duration into the
    policy-operation histogram at (operation); and when [RuleCount > 0]
    it sets the policy-rule-count gauge at (operation) to [RuleCount],
    leaving the gauge alone otherwise.  An entry with an error is
    recorded like any other.  The enforce families and the policy-state
    gauge do not change.  (The event constants are valid UTF-8.) *)
Theorem OnAfterEvent_policy K p now entry calls :
  kinds_distinct K → kinds_utf8 K → logger_wf p → IsActive entry = true →
  EventType_ entry ∈ policyKinds K →
  ∃ a, OnAfterEvent K p now entry calls = Some a ∧
    let operation : string := EventType_ entry in
    let success := match Error entry with Some _ => "false" | None => "true" end in
    let p' := ae_logger a in
    updated_at 0 [operation; success] S (policyOpsTotal p) (policyOpsTotal p')
    ∧ updated_at [] [operation]
        (cons (time.Seconds (time.Sub now (StartTime entry))))
        (policyOpsDuration p) (policyOpsDuration p')
    ∧ ((0 < RuleCount entry)%Z →
         updated_at (float64 0) [operation] (λ _, float64 (RuleCount entry))
           (policyRulesCount p) (policyRulesCount p'))
    ∧ ((RuleCount entry ≤ 0)%Z → policyRulesCount p' = policyRulesCount p)
    ∧ enforceDuration p' = enforceDuration p
    ∧ enforceTotal p' = enforceTotal p
    ∧ policyStateCount p' = policyStateCount p.
Proof.
  intros Hnd Hutf Hwf Hact Hin.
  rewrite OnAfterEvent_active by done.
  rewrite recordByEventType_policy by done.
  destruct (recordPolicyMetrics_Some p (stamped now entry) Hwf
              (kinds_utf8_policy K _ Hutf Hin))
    as (c & h & g & Hc & Hh & Hg & ->).
  simpl in Hc, Hh, Hg. simpl. eexists. split; [reflexivity|]. cbv zeta.
  rewrite afterCallback_logger. simpl.
  split.
  { apply WithLabelValues_updated_at in Hc. unfold policySuccess in Hc.
    simpl in Hc. by destruct (Error entry). }
  split; [by apply WithLabelValues_updated_at in Hh|].
  split; [|split; [|done]].
  - intros Hpos. apply Z.gtb_lt in Hpos. rewrite Hpos in Hg.
    by apply WithLabelValues_updated_at in Hg.
  - intros Hle. destruct (Z.gtb_spec (RuleCount entry) 0) as [Hgt|_]; [lia|].
    by injection Hg as <-.
Qed.

Lemma OnAfterEvent_policy_witness :
  kinds_distinct casbinKinds ∧ kinds_utf8 casbinKinds ∧ logger_wf sampleLogger
  ∧ ∃ a, OnAfterEvent casbinKinds sampleLogger 150%Z sampleAddPolicy [] = Some a
         ∧ child 0 (policyOpsTotal (ae_logger a)) ["addPolicy"; "false"] = 1
         ∧ child (float64 0) (policyRulesCount (ae_logger a)) ["addPolicy"] = float64 5.
Proof.
  assert (kinds_distinct casbinKinds) as Hnd.
  { apply (bool_decide_unpack _). by vm_compute. }
  assert (kinds_utf8 casbinKinds) as Hutf by reflexivity.
  assert (logger_wf sampleLogger) as Hwf by apply newLogger_wf.
  assert (EventType_ sampleAddPolicy ∈ policyKinds casbinKinds) as Hin by left.
  split; [exact Hnd|]. split; [exact Hutf|]. split; [exact Hwf|].
  destruct (OnAfterEvent_policy casbinKinds sampleLogger 150%Z sampleAddPolicy []
              Hnd Hutf Hwf eq_refl Hin)
    as (a & Ha & (_ & Hc & _) & _ & Hg & _).
  exists a. split; [exact Ha|]. split; [exact Hc|].
  assert (0 < RuleCount sampleAddPolicy)%Z as Hpos by reflexivity.
  destruct (Hg Hpos) as (_ & Hset & _). exact Hset.
Defined.

(** C7, as stated, fails: with a callback configured, an active Enforce
    entry whose domain is not valid UTF-8 makes the metrics library
    panic; [OnAfterEvent] does not return, and the callback is never
    reached. *)
Lemma OnAfterEvent_callback_not_reached :
  let p := (SetLogCallback sampleLogger (Some failingCallback)).1 in
  logger_wf p ∧ callback p = Some failingCallback
  ∧ IsActive sampleBadDomain = true
  ∧ OnAfterEvent casbinKinds p 150%Z sampleBadDomain [] = None.
Proof.
  intros p. split; [apply SetLogCallback_wf, newLogger_wf|].
  split; [done|]. split; [done|].
  rewrite OnAfterEvent_active by done.
  rewrite recordByEventType_invalid; [done|]. by vm_compute.
Qed.

(** C7, amended.  For an active entry whose recorded label values are
    valid UTF-8 the metric mutations come first: [p'] is the logger
    after them.  A configured callback is then invoked once, with the
    stamped entry and with [p'] in place, and its error is the result of
    [OnAfterEvent]; the logger stays [p'] whatever the callback
    returned.  Without a callback the result is nil.  The six families
    end up the same whichever callback, or none, is configured. *)
Theorem OnAfterEvent_callback K p now entry calls :
  logger_wf p → IsActive entry = true →
  validLabelValues (recordedLabelValues K p entry) = true →
  ∃ p', recordByEventType K p (stamped now entry) = Some p'
    ∧ (∀ cb, callback p = Some cb →
         OnAfterEvent K p now entry calls
         = Some {| ae_logger := p';
                   ae_entry := (cb (stamped now entry)).1;
                   ae_calls := (calls ++ [{| inv_entry := stamped now entry;
                                              inv_logger := p' |}])%list;
                   ae_result := (cb (stamped now entry)).2 |})
    ∧ (callback p = None →
         OnAfterEvent K p now entry calls
         = Some {| ae_logger := p'; ae_entry := stamped now entry;
                   ae_calls := calls; ae_result := None |})
    ∧ (∀ cb', ∃ a',
         OnAfterEvent K (with_callback cb' p) now entry calls = Some a'
         ∧ metricsOf (ae_logger a') = metricsOf p').
Proof.
  intros Hwf Hact Hval.
  rewrite <- (recordedLabelValues_stamped K p now entry) in Hval.
  destruct (recordByEventType_Some K p (stamped now entry) Hwf Hval) as (p' & Hrec & _).
  exists p'. split; [done|]. split; [|split].
  - intros cb Hcb. rewrite OnAfterEvent_active, Hrec by done. simpl.
    unfold afterCallback. by rewrite Hcb.
  - intros Hcb. rewrite OnAfterEvent_active, Hrec by done. simpl.
    unfold afterCallback. by rewrite Hcb.
  - intros cb'. rewrite OnAfterEvent_active by done.
    rewrite recordByEventType_with_callback, Hrec. simpl.
    eexists. split; [reflexivity|]. by rewrite afterCallback_logger.
Qed.

Lemma OnAfterEvent_callback_witness :
  let p := (SetLogCallback sampleLogger (Some failingCallback)).1 in
  logger_wf p
  ∧ validLabelValues (recordedLabelValues casbinKinds p sampleEnforce) = true
  ∧ ∃ a, OnAfterEvent casbinKinds p 150%Z sampleEnforce [] = Some a
         ∧ ae_result a = Some "callback error"
         ∧ length (ae_calls a) = 1.
Proof.
  intros p.
  assert (logger_wf p) as Hwf by apply SetLogCallback_wf, newLogger_wf.
  assert (validLabelValues (recordedLabelValues casbinKinds p sampleEnforce) = true)
    as Hval by (by vm_compute).
  split; [exact Hwf|]. split; [exact Hval|].
  destruct (OnAfterEvent_callback casbinKinds p 150%Z sampleEnforce [] Hwf eq_refl Hval)
    as (p' & _ & Hcb & _).
  eexists. split; [exact (Hcb failingCallback eq_refl)|]. split; reflexivity.
Defined.

(** C10.  On an active entry whose event type is none of the five known
    ones, [OnAfterEvent] stamps [EndTime] and [Duration], leaves the
    logger with all six families as it was, and still runs the callback,
    once, returning its error; without a callback it returns nil. *)
Theorem OnAfterEvent_unknown K p now entry calls :
  IsActive entry = true →
  EventType_ entry ∉ (EventEnforce K :: policyKinds K) →
  let entry1 := stamped now entry in
  EndTime entry1 = now
  ∧ Duration entry1 = time.Sub now (StartTime entry)
  ∧ OnAfterEvent K p now entry calls
    = Some match callback p with
           | Some cb =>
               {| ae_logger := p; ae_entry := (cb entry1).1;
                  ae_calls := (calls ++ [{| inv_entry := entry1;
                                             inv_logger := p |}])%list;
                  ae_result := (cb entry1).2 |}
           | None =>
               {| ae_logger := p; ae_entry := entry1; ae_calls := calls;
                  ae_result := None |}
           end.
Proof.
  intros Hact Hout entry1. split; [done|]. split; [done|].
  rewrite OnAfterEvent_active by done.
  rewrite recordByEventType_unknown by done. done.
Qed.

Lemma OnAfterEvent_unknown_witness :
  let p := (SetLogCallback sampleLogger (Some failingCallback)).1 in
  (EventType_ sampleOther ∉ (EventEnforce casbinKinds :: policyKinds casbinKinds))
  ∧ ∃ a, OnAfterEvent casbinKinds p 150%Z sampleOther [] = Some a
         ∧ ae_logger a = p ∧ ae_result a = Some "callback error"
         ∧ Duration (ae_entry a) = 50%Z.
Proof.
  intros p.
  assert (EventType_ sampleOther ∉ (EventEnforce casbinKinds :: policyKinds casbinKinds))
    as Hout.
  { apply (bool_decide_unpack _). by vm_compute. }
  split; [exact Hout|].
  destruct (OnAfterEvent_unknown casbinKinds p 150%Z sampleOther [] eq_refl Hout)
    as (_ & _ & Ha).
  eexists. split; [exact Ha|]. repeat split.
Defined.

Lemma Sub_nonneg (t u : Z) : (u ≤ t)%Z → (0 ≤ time.Sub t u)%Z.
Proof.
  intros Hle. unfold time.Sub, time.minDuration, time.maxDuration. cbv zeta.
  destruct (Z.ltb_spec (t - u) (- 2 ^ 63)); [lia|].
  destruct (Z.ltb_spec (2 ^ 63 - 1) (t - u)); lia.
Qed.

Lemma Sub_exact (t u : Z) :
  (time.minDuration ≤ t - u ≤ time.maxDuration)%Z → time.Sub t u = (t - u)%Z.
Proof.
  unfold time.Sub, time.minDuration, time.maxDuration. cbv zeta. intros [Hlo Hhi].
  destruct (Z.ltb_spec (t - u) (- 2 ^ 63)); [lia|].
  destruct (Z.ltb_spec (2 ^ 63 - 1) (t - u)); lia.
Qed.




(* ===================================================================== *)
(** ** Unregistration *)
(* ===================================================================== *)

(** Unregistering a list of descriptors one after the other. *)
Lemma unregister_all_collectors (ds : list Desc) (r : Registry) :
  collectorsByID (foldl (λ r d, (Unregister d r).2) r ds)
  = collectorsByID r ∖ list_to_set (fqName <$> ds)
  ∧ dimHashesByName (foldl (λ r d, (Unregister d r).2) r ds) = dimHashesByName r.
Proof.
  revert r. induction ds as [|d ds IH]; intros r; simpl.
  - split; [set_solver|done].
  - destruct (IH (Unregister d r).2) as [Hc Hd].
    destruct (Unregister_spec d r) as (_ & Hc1 & Hd1).
    rewrite Hc, Hd, Hc1, Hd1. split; [set_solver|done].
Qed.

(** [UnregisterFrom] as a loop over the six descriptors. *)
Lemma UnregisterFrom_fold p registry :
  UnregisterFrom p registry
  = foldl (λ '(result, r) d, let '(b, r') := Unregister d r in (b && result, r'))
          (true, registry) (collectors p).
Proof.
  unfold UnregisterFrom, collectors. cbn [foldl].
  destruct (Unregister (desc (enforceDuration p)) registry) as [b1 r1].
  destruct (Unregister (desc (enforceTotal p)) r1) as [b2 r2].
  destruct (Unregister (desc (policyOpsTotal p)) r2) as [b3 r3].
  destruct (Unregister (desc (policyOpsDuration p)) r3) as [b4 r4].
  destruct (Unregister (desc (policyRulesCount p)) r4) as [b5 r5].
  destruct (Unregister (desc (policyStateCount p)) r5) as [b6 r6]. reflexivity.
Qed.

Lemma unregister_fold_registry (ds : list Desc) (result : bool) (r : Registry) :
  (foldl (λ '(result, r) d, let '(b, r') := Unregister d r in (b && result, r'))
         (result, r) ds).2
  = foldl (λ r d, (Unregister d r).2) r ds.
Proof.
  revert result r. induction ds as [|d ds IH]; intros result r; [done|].
  cbn [foldl]. destruct (Unregister d r) as [b r1]. apply IH.
Qed.

Lemma unregister_fold_result (ds : list Desc) (result : bool) (r : Registry) :
  NoDup (fqName <$> ds) →
  (foldl (λ '(result, r) d, let '(b, r') := Unregister d r in (b && result, r'))
         (result, r) ds).1 = true
  ↔ result = true ∧ ∀ d, d ∈ ds → fqName d ∈ collectorsByID r.
Proof.
  revert result r. induction ds as [|d ds IH]; intros result r Hnd.
  - cbn [foldl fst]. split; [|tauto]. intros ->. split; [done|].
    intros d Hd. by apply elem_of_nil in Hd.
  - rewrite fmap_cons in Hnd. apply NoDup_cons in Hnd as [Hnin Hnd].
    cbn [foldl]. destruct (Unregister_spec d r) as (Hb & Hc & _).
    destruct (Unregister d r) as [b r1]. cbn [fst snd] in Hb, Hc.
    rewrite (IH _ _ Hnd), andb_true_iff, Hb, bool_decide_eq_true, Hc.
    split.
    + intros ((Hd & ->) & Hrest). split; [done|].
      intros d' [->|Hd']%elem_of_cons; [done|].
      specialize (Hrest d' Hd'). set_solver.
    + intros (-> & Hall). split; [split; [|done]; apply Hall; by left|].
      intros d' Hd'. apply elem_of_difference. split; [apply Hall; by right|].
      rewrite elem_of_singleton. intros Heq. apply Hnin. rewrite <- Heq.
      by apply list_elem_of_fmap_2.
Qed.


Lemma newLogger_familyNames_NoDup (labels : list string) :
  NoDup (familyNames (newLogger labels)).
Proof. apply (bool_decide_unpack _). by vm_compute. Qed.

Lemma elem_of_familyNames p name :
  name ∈ familyNames p ↔ ∃ d, d ∈ collectors p ∧ fqName d = name.
Proof.
  unfold familyNames. rewrite list_elem_of_fmap. naive_solver.
Qed.

(** A fresh registry takes the six families of any label list without
    duplicates. *)
Lemma newLogger_registrable_fresh (labels : list string) :
  NoDup labels → registrable (collectors (newLogger labels)) NewRegistry.
Proof.
  intros Hnd. split; [|split; [|split]].
  - unfold collectors. simpl.
    repeat (apply Forall_cons; split); try done;
      by apply bool_decide_eq_true_2.
  - apply newLogger_familyNames_NoDup.
  - intros d _. simpl. set_solver.
  - intros d dim _. simpl. by rewrite lookup_empty.
Qed.

(** C3, as stated, fails: for an active Enforce entry whose domain is
    not valid UTF-8 the metrics library panics at the first
    [WithLabelValues], and nothing is counted or observed. *)
Lemma OnAfterEvent_Enforce_panics :
  logger_wf sampleLogger
  ∧ IsActive sampleBadDomain = true
  ∧ EventType_ sampleBadDomain = EventEnforce casbinKinds
  ∧ OnAfterEvent casbinKinds sampleLogger 150%Z sampleBadDomain [] = None.
Proof.
  split; [apply newLogger_wf|]. split; [done|]. split; [done|].
  rewrite OnAfterEvent_active by done.
  rewrite recordByEventType_invalid; [done|]. by vm_compute.
Qed.

(** C3, amended.  Both enforce instruments are built from the one label
    list the constructor resolved, and the constructor returns such a
    logger on a fresh registry whenever that list names no label twice.
    On an active entry of type Enforce whose projected label values are
    valid UTF-8, [OnAfterEvent] adds exactly one to the enforcement
    counter at the projected label vector and puts exactly one
    observation, the seconds of the entry's duration, into the
    enforcement histogram at the same vector; no other child of the two
    families and none of the four other families changes, and the two
    families keep children at the same label vectors. *)
Theorem OnAfterEvent_Enforce :
  (∀ registry options dr r p,
     NewPrometheusLoggerWithOptions registry options dr = (r, Some p) →
     variableLabels (desc (enforceTotal p)) = enforceLabels p
     ∧ variableLabels (desc (enforceDuration p)) = enforceLabels p
     ∧ logger_wf p)
  ∧ (∀ supplied dr,
       NoDup (filter (λ label, label ∈ optionalLabels) supplied) →
       ∃ r p, NewPrometheusLoggerWithOptions (Some NewRegistry)
                (Some {| EnforceLabels := supplied |}) dr = (r, Some p))
  ∧ (∀ K p now entry calls,
       logger_wf p → IsActive entry = true → EventType_ entry = EventEnforce K →
       validLabelValues (enforceLabelValues (enforceLabels p) entry) = true →
       ∃ a, OnAfterEvent K p now entry calls = Some a ∧
         let lvs := enforceLabelValues (enforceLabels p) entry in
         let p' := ae_logger a in
         length lvs = length (enforceLabels p)
         ∧ updated_at 0 lvs S (enforceTotal p) (enforceTotal p')
         ∧ updated_at [] lvs
             (cons (time.Seconds (time.Sub now (StartTime entry))))
             (enforceDuration p) (enforceDuration p')
         ∧ dom (metrics (enforceTotal p')) = dom (metrics (enforceDuration p'))
         ∧ policyOpsTotal p' = policyOpsTotal p
         ∧ policyOpsDuration p' = policyOpsDuration p
         ∧ policyRulesCount p' = policyRulesCount p
         ∧ policyStateCount p' = policyStateCount p).
Proof.
  split; [|split].
  - intros registry options dr r p Hnew.
    pose proof (NewPrometheusLoggerWithOptions_wf _ _ _ _ _ Hnew) as Hwf.
    destruct (logger_wf_labels p Hwf) as (Hd & Ht & _). done.
  - intros supplied dr Hnd. apply buildEnforceLabels_NoDup in Hnd.
    destruct (MustRegister_Returned (collectors (newLogger (buildEnforceLabels supplied)))
                NewRegistry) as (r & Hr & _).
    { by apply newLogger_registrable_fresh. }
    exists r, (newLogger (buildEnforceLabels supplied)).
    by apply (NewPrometheusLoggerWithOptions_Returned (Some NewRegistry)
                (Some {| EnforceLabels := supplied |})).
  - intros K p now entry calls Hwf Hact Hty Hval.
    rewrite OnAfterEvent_active by done.
    rewrite recordByEventType_Enforce by done.
    rewrite <- (enforceLabelValues_stamped _ now) in Hval.
    destruct (recordEnforceMetrics_Some p (stamped now entry) Hwf Hval)
      as (h & c & Hh & Hc & ->).
    rewrite enforceLabelValues_stamped in Hh, Hc.
    simpl. eexists. split; [reflexivity|]. cbv zeta.
    rewrite afterCallback_logger. simpl.
    split; [apply enforceLabelValues_length|].
    split; [by apply WithLabelValues_updated_at in Hc|].
    split; [by apply WithLabelValues_updated_at in Hh|].
    split; [|done].
    rewrite (WithLabelValues_dom _ _ _ _ _ Hh), (WithLabelValues_dom _ _ _ _ _ Hc).
    by rewrite (wf_aligned p Hwf).
Qed.

Lemma OnAfterEvent_Enforce_witness :
  ∃ r p,
    NewPrometheusLoggerWithOptions (Some NewRegistry) (Some sampleOptions) NewRegistry
    = (r, Some p)
    ∧ validLabelValues (enforceLabelValues (enforceLabels p) sampleEnforce) = true
    ∧ ∃ a, OnAfterEvent casbinKinds p 150%Z sampleEnforce [] = Some a
           ∧ child 0 (enforceTotal (ae_logger a)) ["true"; "default"; "alice"; "data1"] = 1
           ∧ child [] (enforceDuration (ae_logger a)) ["true"; "default"; "alice"; "data1"]
             = [time.Seconds 50%Z].
Proof.
  assert (NoDup (filter (λ label, label ∈ optionalLabels) (EnforceLabels sampleOptions)))
    as Hnd.
  { apply (bool_decide_unpack _). by vm_compute. }
  destruct (proj1 (proj2 OnAfterEvent_Enforce) (EnforceLabels sampleOptions) NewRegistry Hnd)
    as (r & p & Hnew).
  exists r, p. split; [exact Hnew|].
  destruct (proj1 OnAfterEvent_Enforce _ _ _ _ _ Hnew) as (_ & _ & Hwf).
  apply NewPrometheusLoggerWithOptions_inv in Hnew as [-> _].
  assert (validLabelValues
            (enforceLabelValues (enforceLabels sampleLogger) sampleEnforce) = true)
    as Hval by (by vm_compute).
  split; [exact Hval|].
  destruct (proj2 (proj2 OnAfterEvent_Enforce) casbinKinds sampleLogger 150%Z
              sampleEnforce [] Hwf eq_refl eq_refl Hval)
    as (a & Ha & _ & (_ & Hc & _) & (_ & Hh & _) & _).
  exists a. split; [exact Ha|]. split; [exact Hc|exact Hh].
Defined.




(* ===================================================================== *)
(** ** The event filter and the before/after protocol *)
(* ===================================================================== *)

Lemma SetEventTypes_lookup (eventTypes : list EventType) (m : gmap EventType bool)
    (kind : EventType) :
  foldl (λ m eventType, <[eventType := true]> m) m eventTypes !! kind
  = if decide (kind ∈ eventTypes) then Some true else m !! kind.
Proof.
  revert m. induction eventTypes as [|t ts IH]; intros m; simpl; [done|].
  rewrite IH. destruct (decide (kind ∈ ts)) as [Hin|Hout].
  - rewrite decide_True; [done|]. by right.
  - destruct (decide (kind = t)) as [->|Hne].
    + rewrite decide_True by (by left). by rewrite lookup_insert_eq.
    + rewrite decide_False by (rewrite elem_of_cons; tauto).
      by rewrite lookup_insert_ne.
Qed.

Lemma SetEventTypes_enabledEventTypes p eventTypes (kind : EventType) :
  enabledEventTypes (SetEventTypes p eventTypes).1 !! kind
  = if decide (kind ∈ eventTypes) then Some true else None.
Proof. simpl. by rewrite SetEventTypes_lookup, lookup_empty. Qed.

(** X1.  [SetEventTypes] replaces the enabled set: afterwards a type is
    enabled exactly when it is in the list given, whatever was enabled
    before; repeated entries count once.  Nothing else of the logger
    changes, and the call returns nil. *)
Theorem SetEventTypes_replaces p eventTypes :
  let p' := (SetEventTypes p eventTypes).1 in
  (SetEventTypes p eventTypes).2 = None
  ∧ (∀ kind, enabled p' kind = true ↔ kind ∈ eventTypes)
  ∧ enabledSet p' = list_to_set eventTypes
  ∧ size (enabledEventTypes p') = length (remove_dups eventTypes)
  ∧ callback p' = callback p ∧ enforceLabels p' = enforceLabels p
  ∧ metricsOf p' = metricsOf p.
Proof.
  intros p'. split; [done|].
  pose proof (SetEventTypes_enabledEventTypes p eventTypes) as Hlk. fold p' in Hlk.
  assert (enabledSet p' = list_to_set eventTypes) as Hset.
  { unfold enabledSet. apply set_eq. intros kind.
    rewrite elem_of_dom, Hlk, elem_of_list_to_set.
    destruct (decide (kind ∈ eventTypes)); unfold is_Some; naive_solver. }
  split; [|split; [done|split; [|done]]].
  - intros kind. unfold enabled. rewrite Hlk.
    by destruct (decide (kind ∈ eventTypes)).
  - rewrite <- size_dom. fold (enabledSet p'). rewrite Hset.
    assert (list_to_set eventTypes = list_to_set (C:=gset EventType) (remove_dups eventTypes))
      as ->.
    { apply set_eq. intros kind.
      by rewrite !elem_of_list_to_set, elem_of_remove_dups. }
    apply size_list_to_set, NoDup_remove_dups.
Qed.

(** X2.  After [SetEventTypes p eventTypes], [OnBeforeEvent] marks an
    entry active exactly when the list is empty or holds the entry's
    type; the empty list switches the filter off. *)
Theorem SetEventTypes_OnBeforeEvent p eventTypes now entry :
  let p' := (SetEventTypes p eventTypes).1 in
  IsActive (OnBeforeEvent p' now entry).1 = true
  ↔ eventTypes = [] ∨ EventType_ entry ∈ eventTypes.
Proof.
  intros p'.
  pose proof (SetEventTypes_enabledEventTypes p eventTypes) as Hlk. fold p' in Hlk.
  assert (enabled p' (EventType_ entry) = true ↔ EventType_ entry ∈ eventTypes) as Hin.
  { unfold enabled. rewrite Hlk.
    by destruct (decide (EventType_ entry ∈ eventTypes)). }
  assert ((0 <? size (enabledEventTypes p')) = false ↔ eventTypes = []) as Hemp.
  { rewrite enabledSet_empty. unfold enabledSet. rewrite dom_empty_iff_L.
    split.
    - intros Hm. destruct eventTypes as [|t ts]; [done|].
      specialize (Hlk t). rewrite Hm, lookup_empty in Hlk.
      rewrite decide_True in Hlk by (by left). done.
    - intros ->. apply map_eq. intros kind. by rewrite Hlk, lookup_empty. }
  unfold OnBeforeEvent.
  destruct (0 <? size (enabledEventTypes p')) eqn:Hsz;
    destruct (enabled p' (EventType_ entry)) eqn:Hk; simpl.
  - split; [intros _; right; by apply Hin|done].
  - split; [done|]. intros [Hnil|Hmem].
    + apply Hemp in Hnil. congruence.
    + apply Hin in Hmem. congruence.
  - split; [intros _; left; by apply Hemp|done].
  - split; [intros _; left; by apply Hemp|done].
Qed.

(** X3.  An entry that the filter rejects goes through the whole
    protocol without a trace: after [OnBeforeEvent], whatever outcome the
    caller fills in (leaving [IsActive] alone), [OnAfterEvent] returns nil
    with the logger and all its metrics unchanged and the callback not
    invoked. *)
Theorem filtered_event_leaves_no_trace K p now1 now2 entry
    (fill : LogEntry → LogEntry) calls :
  logger_wf p →
  enabledSet p ≠ ∅ → EventType_ entry ∉ enabledSet p →
  (∀ e, IsActive (fill e) = IsActive e) →
  let entry1 := fill (OnBeforeEvent p now1 entry).1 in
  OnAfterEvent K p now2 entry1 calls
  = Some {| ae_logger := p; ae_entry := entry1; ae_calls := calls;
            ae_result := None |}.
Proof.
  intros Hwf Hne Hout Hfill entry1.
  assert (IsActive entry1 = false) as Hin.
  { subst entry1. rewrite Hfill. unfold OnBeforeEvent.
    destruct (_ && _) eqn:Hrej; [done|].
    apply OnBeforeEvent_rejects in Hrej; [|done]. by destruct Hrej. }
  unfold OnAfterEvent. by rewrite Hin.
Qed.

Lemma filtered_event_leaves_no_trace_witness :
  let p := (SetEventTypes sampleLogger ["enforce"]).1 in
  let entry1 := set_IsActive false sampleAddPolicy in
  OnAfterEvent casbinKinds p 150%Z entry1 []
  = Some {| ae_logger := p; ae_entry := entry1; ae_calls := []; ae_result := None |}.
Proof.
  intros p entry1.
  assert (logger_wf p) as Hwf by apply SetEventTypes_wf, newLogger_wf.
  assert (enabledSet p ≠ ∅) as Hne.
  { apply (bool_decide_unpack _). by vm_compute. }
  assert (EventType_ sampleAddPolicy ∉ enabledSet p) as Hout.
  { apply (bool_decide_unpack _). by vm_compute. }
  exact (filtered_event_leaves_no_trace casbinKinds p 7%Z 150%Z sampleAddPolicy
           (λ e, e) [] Hwf Hne Hout (λ e, eq_refl)).
Defined.

(** X4.  An Enforce entry that the filter lets through is timed by the
    two hooks alone: with [OnBeforeEvent] at [now1] and [OnAfterEvent] at
    [now2 ≥ now1], the duration observed is that of [now2 - now1], not
    negative, whatever [StartTime], [EndTime] and [Duration] the entry
    held at first; the sample lands at the label vector of the entry as
    the caller filled it in, where the counter goes up by one.  This is
    for label values that are valid UTF-8; otherwise the hook panics. *)
Theorem enforce_protocol_records K p now1 now2 entry
    (fill : LogEntry → LogEntry) calls :
  logger_wf p → passes p (EventType_ entry) →
  EventType_ entry = EventEnforce K → (now1 ≤ now2)%Z →
  (∀ e, IsActive (fill e) = IsActive e ∧ StartTime (fill e) = StartTime e
        ∧ EventType_ (fill e) = EventType_ e) →
  let entry1 := fill (OnBeforeEvent p now1 entry).1 in
  let lvs := enforceLabelValues (enforceLabels p) entry1 in
  (validLabelValues lvs = false → OnAfterEvent K p now2 entry1 calls = None)
  ∧ (validLabelValues lvs = true →
  ∃ a, OnAfterEvent K p now2 entry1 calls = Some a
    ∧ child [] (enforceDuration (ae_logger a)) lvs
      = time.Seconds (time.Sub now2 now1) :: child [] (enforceDuration p) lvs
    ∧ child 0 (enforceTotal (ae_logger a)) lvs = S (child 0 (enforceTotal p) lvs)
    ∧ (0 ≤ time.Sub now2 now1)%Z
    ∧ ((now2 - now1 ≤ time.maxDuration)%Z → time.Sub now2 now1 = (now2 - now1)%Z)).
Proof.
  intros Hwf Hpass Hty Hle Hfill entry1 lvs.
  assert ((OnBeforeEvent p now1 entry).1 = set_StartTime now1 (set_IsActive true entry))
    as Hbefore.
  { unfold OnBeforeEvent. apply OnBeforeEvent_rejects in Hpass; [|done].
    by rewrite Hpass. }
  destruct (Hfill (OnBeforeEvent p now1 entry).1) as (Hact & Hstart & Hty1).
  fold entry1 in Hact, Hstart, Hty1. rewrite Hbefore in Hact, Hstart, Hty1.
  simpl in Hact, Hstart, Hty1.
  rewrite OnAfterEvent_active by done.
  rewrite recordByEventType_Enforce by (simpl; congruence).
  split.
  { intros Hval. rewrite recordEnforceMetrics_invalid; [done|].
    by rewrite enforceLabelValues_stamped. }
  intros Hval.
  assert (validLabelValues
            (enforceLabelValues (enforceLabels p) (stamped now2 entry1)) = true) as Hval'
    by (by rewrite enforceLabelValues_stamped).
  destruct (recordEnforceMetrics_Some p (stamped now2 entry1) Hwf Hval')
    as (h & c & Hh & Hc & ->).
  rewrite enforceLabelValues_stamped in Hh, Hc. fold lvs in Hh, Hc.
  simpl in Hh. rewrite Hstart in Hh.
  simpl. eexists. split; [reflexivity|]. rewrite afterCallback_logger. simpl.
  apply WithLabelValues_updated_at in Hh as (_ & Hh & _).
  apply WithLabelValues_updated_at in Hc as (_ & Hc & _).
  split; [done|]. split; [done|]. split; [by apply Sub_nonneg|].
  intros Hmax. apply Sub_exact. unfold time.minDuration. lia.
Qed.

Lemma enforce_protocol_records_witness :
  ∃ a, OnAfterEvent casbinKinds sampleLogger 150%Z
         (set_IsActive true (set_StartTime 7%Z sampleEnforce)) [] = Some a
       ∧ child 0 (enforceTotal (ae_logger a)) ["true"; "default"; "alice"; "data1"] = 1.
Proof.
  assert (logger_wf sampleLogger) as Hwf by apply newLogger_wf.
  assert (passes sampleLogger (EventType_ sampleEnforce)) as Hpass by (by left).
  assert (7 ≤ 150)%Z as Hle by lia.
  destruct (enforce_protocol_records casbinKinds sampleLogger 7%Z 150%Z sampleEnforce
              (λ e, e) [] Hwf Hpass eq_refl Hle (λ e, conj eq_refl (conj eq_refl eq_refl)))
    as [_ Hrec].
  destruct (Hrec eq_refl) as (a & Ha & _ & Hc & _).
  exists a. split; [exact Ha|exact Hc].
Defined.

(* ===================================================================== *)
(** ** What recording does to the families *)
(* ===================================================================== *)

Lemma WithLabelValues_child {V : Type} (zero : V) lvs (update : V → V)
    (v v' : MetricVec V) (l : list string) :
  WithLabelValues zero lvs update v = Some v' →
  child zero v' l = if decide (l = lvs) then update (child zero v lvs) else child zero v l.
Proof.
  intros ->%WithLabelValues_inv. unfold child at 1. simpl.
  destruct (decide (l = lvs)) as [->|Hne].
  - by rewrite lookup_insert_eq.
  - by rewrite lookup_insert_ne.
Qed.

(** X5.  [UpdatePolicyState] panics exactly when the policy type is not
    valid UTF-8.  Otherwise it sets the policy-state gauge at the given
    policy type to the given count, replacing what was there: a second
    update of the same type leaves the logger as if only the second had
    been made, with no new series.  Other policy types, the five other
    families, the filter and the callback are untouched. *)
Theorem UpdatePolicyState_overwrites p ptype count :
  logger_wf p →
  (utf8.ValidString ptype = false → UpdatePolicyState p ptype count = None)
  ∧ (utf8.ValidString ptype = true →
  ∃ p', UpdatePolicyState p ptype count = Some p'
    ∧ child (float64 0) (policyStateCount p') [ptype] = float64 count
    ∧ (∀ lvs, lvs ≠ [ptype] →
         metrics (policyStateCount p') !! lvs = metrics (policyStateCount p) !! lvs)
    ∧ dom (metrics (policyStateCount p')) = {[ [ptype] ]} ∪ dom (metrics (policyStateCount p))
    ∧ (enforceDuration p', enforceTotal p', policyOpsTotal p', policyOpsDuration p',
       policyRulesCount p')
      = (enforceDuration p, enforceTotal p, policyOpsTotal p, policyOpsDuration p,
         policyRulesCount p)
    ∧ enabledEventTypes p' = enabledEventTypes p ∧ callback p' = callback p
    ∧ (∀ count2, UpdatePolicyState p' ptype count2 = UpdatePolicyState p ptype count2)).
Proof.
  intros Hwf. destruct (logger_wf_labels p Hwf) as (_ & _ & _ & _ & _ & Hs).
  unfold UpdatePolicyState, Set_. split.
  { intros Hval. rewrite WithLabelValues_invalid; [done|].
    unfold validLabelValues. simpl. by rewrite Hval. }
  intros Hval.
  assert (validLabelValues [ptype] = true) as Hv
    by (unfold validLabelValues; simpl; by rewrite Hval).
  rewrite WithLabelValues_Some by (by rewrite ?Hs).
  eexists. split; [reflexivity|]. simpl.
  split; [unfold child; simpl; by rewrite lookup_insert_eq|].
  split; [intros lvs Hne; by rewrite lookup_insert_ne|].
  split; [by rewrite dom_insert_L|].
  split; [done|]. split; [done|]. split; [done|].
  intros count2. rewrite !WithLabelValues_Some by (simpl; by rewrite ?Hs).
  simpl. unfold with_policyStateCount. simpl. by rewrite insert_insert_eq.
Qed.

Lemma UpdatePolicyState_overwrites_witness :
  UpdatePolicyState sampleLogger (String (Ascii.ascii_of_nat 255) EmptyString) 1 = None
  ∧ ∃ p', UpdatePolicyState sampleLogger "p" 10 = Some p'
          ∧ UpdatePolicyState p' "p" 15 = UpdatePolicyState sampleLogger "p" 15.
Proof.
  split.
  - exact (proj1 (UpdatePolicyState_overwrites sampleLogger
                    (String (Ascii.ascii_of_nat 255) EmptyString) 1 (newLogger_wf _))
             eq_refl).
  - destruct (proj2 (UpdatePolicyState_overwrites sampleLogger "p" 10 (newLogger_wf _))
                eq_refl)
      as (p' & Hp' & _ & _ & _ & _ & _ & _ & Hagain).
    exists p'. split; [exact Hp'|exact (Hagain 15%Z)].
Defined.








(* ===================================================================== *)
(** ** Construction against a registry *)
(* ===================================================================== *)

Lemma MustRegister_fresh (ds : list Desc) (r r' : Registry) :
  MustRegister ds r = (r', Returned) →
  ∀ d, d ∈ ds → fqName d ∉ collectorsByID r.
Proof.
  revert r. induction ds as [|d ds IH]; intros r; simpl.
  - intros _ d Hd. by apply elem_of_nil in Hd.
  - destruct (Register d r) as [r1|] eqn:Hr1; [|done]. intros Hrest.
    assert (is_Some (Register d r)) as Hsome by eauto.
    apply Register_Some_iff in Hsome as (_ & Hfree & _).
    destruct (Register_inv _ _ _ Hr1) as [Hc1 _].
    intros d' [->|Hd']%elem_of_cons; [done|].
    specialize (IH _ Hrest d' Hd'). rewrite Hc1 in IH.
    intros Hin. apply IH. by apply elem_of_union_r.
Qed.

Lemma Register_registered (d : Desc) (r : Registry) :
  fqName d ∈ collectorsByID r → Register d r = None.
Proof.
  intros Hin. unfold Register. destruct (negb _); [done|].
  by rewrite bool_decide_eq_true_2.
Qed.


Lemma newLogger_familyNames (labels : list string) :
  familyNames (newLogger labels)
  = ["casbin_enforce_duration_seconds"; "casbin_enforce_total";
     "casbin_policy_operations_total"; "casbin_policy_operations_duration_seconds";
     "casbin_policy_rules_count"; "casbin_policy_state_count"].
Proof. reflexivity. Qed.

Lemma UnregisterFrom_collectors p registry :
  collectorsByID (UnregisterFrom p registry).2
  = collectorsByID registry ∖ list_to_set (familyNames p).
Proof.
  rewrite UnregisterFrom_fold, unregister_fold_registry.
  apply unregister_all_collectors.
Qed.

(** X8.  A construction that returns adds exactly its six families to the
    target registry, none of which was registered before, and keeps what
    the registry held; the logger starts with no filter, no callback and
    no series in any of its six families.  [UnregisterFrom] on that
    registry then returns true and gives back the set of collectors the
    registry had before the construction. *)
Theorem construct_then_unregister registry options dr r p :
  NewPrometheusLoggerWithOptions registry options dr = (r, Some p) →
  let r0 := default dr registry in
  collectorsByID r = list_to_set (familyNames p) ∪ collectorsByID r0
  ∧ (∀ name, name ∈ familyNames p → name ∉ collectorsByID r0)
  ∧ enabledEventTypes p = ∅ ∧ callback p = None
  ∧ metrics (enforceDuration p) = ∅ ∧ metrics (enforceTotal p) = ∅
  ∧ metrics (policyOpsTotal p) = ∅ ∧ metrics (policyOpsDuration p) = ∅
  ∧ metrics (policyRulesCount p) = ∅ ∧ metrics (policyStateCount p) = ∅
  ∧ (UnregisterFrom p r).1 = true
  ∧ collectorsByID (UnregisterFrom p r).2 = collectorsByID r0.
Proof.
  intros Hnew r0.
  apply NewPrometheusLoggerWithOptions_inv in Hnew as [Hp Hreg]. fold r0 in Hreg.
  pose proof (MustRegister_fresh _ _ _ Hreg) as Hfresh.
  apply MustRegister_inv in Hreg as (_ & Hcs & _ & _).
  assert (∀ name, name ∈ familyNames p → name ∉ collectorsByID r0) as Hfree.
  { intros name (d & Hd & <-)%elem_of_familyNames. by apply Hfresh. }
  split; [done|]. split; [done|].
  split; [by rewrite Hp|]. split; [by rewrite Hp|].
  do 6 (split; [by rewrite Hp|]).
  split.
  - rewrite UnregisterFrom_fold. apply unregister_fold_result.
    + rewrite Hp. apply newLogger_familyNames_NoDup.
    + split; [done|]. intros d Hd. rewrite Hcs.
      apply elem_of_union_l, elem_of_list_to_set. by apply list_elem_of_fmap_2.
  - rewrite UnregisterFrom_collectors, Hcs. apply set_eq. intros x.
    rewrite elem_of_difference, elem_of_union. fold (familyNames p).
    rewrite elem_of_list_to_set. specialize (Hfree x). tauto.
Qed.

Lemma construct_then_unregister_witness :
  ∃ r, NewPrometheusLoggerWithOptions (Some NewRegistry) (Some sampleOptions) NewRegistry
       = (r, Some sampleLogger)
       ∧ collectorsByID (UnregisterFrom sampleLogger r).2 = collectorsByID NewRegistry.
Proof.
  destruct (MustRegister_Returned (collectors sampleLogger) NewRegistry)
    as (r & Hreg & _).
  { apply newLogger_registrable_fresh. apply (bool_decide_unpack _). by vm_compute. }
  assert (NewPrometheusLoggerWithOptions (Some NewRegistry) (Some sampleOptions) NewRegistry
          = (r, Some sampleLogger)) as Hnew
    by exact (NewPrometheusLoggerWithOptions_Returned
                (Some NewRegistry) (Some sampleOptions) NewRegistry r Hreg).
  exists r. split; [exact Hnew|].
  destruct (construct_then_unregister (Some NewRegistry) (Some sampleOptions)
              NewRegistry r sampleLogger Hnew)
    as (_ & _ & _ & _ & _ & _ & _ & _ & _ & _ & _ & Hback).
  exact Hback.
Defined.

(** X9.  A second construction against a registry that still holds the
    families of a first one panics, whatever its options, and leaves the
    registry as it was. *)
Theorem construct_twice_panics registry options dr r p registry' options' dr' :
  NewPrometheusLoggerWithOptions registry options dr = (r, Some p) →
  default dr' registry' = r →
  NewPrometheusLoggerWithOptions registry' options' dr' = (r, None).
Proof.
  intros Hnew Htarget.
  apply NewPrometheusLoggerWithOptions_inv in Hnew as [Hp Hreg].
  apply MustRegister_inv in Hreg as (_ & Hcs & _ & _).
  unfold NewPrometheusLoggerWithOptions. cbv zeta. rewrite Htarget.
  unfold collectors at 1. cbn [MustRegister].
  rewrite Register_registered; [done|].
  rewrite Hcs. apply elem_of_union_l, elem_of_list_to_set.
  rewrite Hp. apply (bool_decide_unpack _). by vm_compute.
Qed.

Lemma construct_twice_panics_witness :
  ∃ r, NewPrometheusLoggerWithOptions (Some NewRegistry) (Some sampleOptions) NewRegistry
       = (r, Some sampleLogger)
       ∧ NewPrometheusLoggerWithOptions (Some r) None NewRegistry = (r, None).
Proof.
  destruct (MustRegister_Returned (collectors sampleLogger) NewRegistry)
    as (r & Hreg & _).
  { apply newLogger_registrable_fresh. apply (bool_decide_unpack _). by vm_compute. }
  assert (NewPrometheusLoggerWithOptions (Some NewRegistry) (Some sampleOptions) NewRegistry
          = (r, Some sampleLogger)) as Hnew
    by exact (NewPrometheusLoggerWithOptions_Returned
                (Some NewRegistry) (Some sampleOptions) NewRegistry r Hreg).
  exists r. split; [exact Hnew|].
  exact (construct_twice_panics (Some NewRegistry) (Some sampleOptions) NewRegistry r
           sampleLogger (Some r) None NewRegistry Hnew eq_refl).
Defined.

Lemma NewPrometheusLoggerWithOptions_Panicked registry options dr r :
  let p := newLogger (buildEnforceLabels
                        (EnforceLabels (default {| EnforceLabels := [] |} options))) in
  MustRegister (collectors p) (default dr registry) = (r, Panicked) →
  NewPrometheusLoggerWithOptions registry options dr = (r, None).
Proof.
  intros p Hreg. unfold NewPrometheusLoggerWithOptions. cbv zeta.
  fold p. by rewrite Hreg.
Qed.

(** X10.  Against a fresh registry a construction returns exactly when
    the optional labels it keeps are pairwise different: naming a
    recognized label twice makes the construction panic, with nothing
    registered. *)
Theorem construct_duplicate_labels supplied dr :
  let kept := filter (λ label, label ∈ optionalLabels) supplied in
  let result := NewPrometheusLoggerWithOptions (Some NewRegistry)
                  (Some {| EnforceLabels := supplied |}) dr in
  (NoDup kept → ∃ r, result = (r, Some (newLogger ("allowed" :: "domain" :: kept))))
  ∧ (¬ NoDup kept → result = (NewRegistry, None)).
Proof.
  intros kept result. subst result.
  pose proof (buildEnforceLabels_NoDup supplied) as Hnd. fold kept in Hnd.
  pose proof (buildEnforceLabels_filter supplied) as Hlabels. fold kept in Hlabels.
  split.
  - intros Hk. apply Hnd in Hk.
    destruct (MustRegister_Returned (collectors (newLogger (buildEnforceLabels supplied)))
                NewRegistry) as (r & Hr & _).
    { by apply newLogger_registrable_fresh. }
    exists r. rewrite <- Hlabels.
    by apply (NewPrometheusLoggerWithOptions_Returned (Some NewRegistry)
                (Some {| EnforceLabels := supplied |})).
  - intros Hk.
    apply (NewPrometheusLoggerWithOptions_Panicked (Some NewRegistry)
             (Some {| EnforceLabels := supplied |})).
    change (MustRegister (collectors (newLogger (buildEnforceLabels supplied)))
              NewRegistry = (NewRegistry, Panicked)).
    unfold collectors. cbn [MustRegister].
    assert (Register (desc (enforceDuration (newLogger (buildEnforceLabels supplied))))
              NewRegistry = None) as Hfail.
    { unfold Register, Desc_valid. simpl.
      rewrite bool_decide_eq_false_2; [done|]. by rewrite Hnd. }
    by rewrite Hfail.
Qed.

Lemma construct_duplicate_labels_witness :
  NewPrometheusLoggerWithOptions (Some NewRegistry)
    (Some {| EnforceLabels := ["subject"; "subject"] |}) NewRegistry
  = (NewRegistry, None).
Proof.
  apply (proj2 (construct_duplicate_labels ["subject"; "subject"] NewRegistry)).
  apply (bool_decide_unpack _). by vm_compute.
Defined.



(** X12.  [Unregister] does to the default registry what [UnregisterFrom]
    does to a given one; after [NewPrometheusLogger] it gives the default
    registry back the collectors it had, and the logger it was called on
    has the two default enforce labels. *)
Theorem NewPrometheusLogger_Unregister :
  (∀ p dr, Unregister_ p dr = (UnregisterFrom p dr).2)
  ∧ (∀ dr r p, NewPrometheusLogger dr = (r, Some p) →
       enforceLabels p = ["allowed"; "domain"]
       ∧ collectorsByID (Unregister_ p r) = collectorsByID dr
       ∧ ∀ name, name ∈ familyNames p → name ∉ collectorsByID (Unregister_ p r)).
Proof.
  assert (∀ p dr, Unregister_ p dr = (UnregisterFrom p dr).2) as Hsame.
  { intros p dr. by rewrite UnregisterFrom_fold, unregister_fold_registry. }
  split; [done|]. intros dr r p Hnew. unfold NewPrometheusLogger in Hnew.
  pose proof Hnew as [Hp _]%NewPrometheusLoggerWithOptions_inv.
  pose proof Hnew as Hreg%NewPrometheusLoggerWithOptions_inv.
  destruct Hreg as [_ Hreg]. pose proof (MustRegister_fresh _ _ _ Hreg) as Hfresh.
  apply MustRegister_inv in Hreg as (_ & Hcs & _ & _). cbn [default] in Hcs, Hfresh.
  split; [by rewrite Hp|]. rewrite Hsame, UnregisterFrom_collectors.
  split.
  - rewrite Hcs. apply set_eq. intros x.
    rewrite elem_of_difference, elem_of_union. fold (familyNames p).
    rewrite elem_of_list_to_set.
    assert (x ∈ familyNames p → x ∉ collectorsByID dr) as Hx.
    { intros (d & Hd & <-)%elem_of_familyNames. by apply Hfresh. }
    tauto.
  - intros name Hin. rewrite elem_of_difference, elem_of_list_to_set. tauto.
Qed.

Lemma NewPrometheusLogger_Unregister_witness :
  ∃ r p, NewPrometheusLogger NewRegistry = (r, Some p)
         ∧ collectorsByID (Unregister_ p r) = collectorsByID NewRegistry.
Proof.
  destruct (MustRegister_Returned (collectors (newLogger ["allowed"; "domain"]))
              NewRegistry) as (r & Hreg & _).
  { apply newLogger_registrable_fresh. apply (bool_decide_unpack _). by vm_compute. }
  assert (NewPrometheusLogger NewRegistry = (r, Some (newLogger ["allowed"; "domain"])))
    as Hnew
    by exact (NewPrometheusLoggerWithOptions_Returned None None NewRegistry r Hreg).
  exists r, (newLogger ["allowed"; "domain"]). split; [exact Hnew|].
  exact (proj1 (proj2 (proj2 NewPrometheusLogger_Unregister NewRegistry r _ Hnew))).
Defined.

(** X13.  The label vector of a constructed logger: the allowed value,
    the domain value, then one value per optional label kept, in the
    order kept.  With nil options every enforce sample is addressed by
    (allowed, domain) alone, so entries that differ only in subject,
    object or action share a series. *)
Theorem constructed_label_vector registry options dr r p entry :
  NewPrometheusLoggerWithOptions registry options dr = (r, Some p) →
  let kept := filter (λ label, label ∈ optionalLabels)
                (EnforceLabels (default {| EnforceLabels := [] |} options)) in
  enforceLabelValues (enforceLabels p) entry
  = enforceAllowed entry :: enforceDomain entry
      :: map (λ name, if decide (name = "subject") then Subject entry
                      else if decide (name = "object") then Object entry
                      else Action entry) kept
  ∧ (options = None →
       enforceLabelValues (enforceLabels p) entry
       = [enforceAllowed entry; enforceDomain entry]).
Proof.
  intros [-> _]%NewPrometheusLoggerWithOptions_inv kept.
  assert (enforceLabelValues
            (enforceLabels
               (newLogger
                  (buildEnforceLabels
                     (EnforceLabels (default {| EnforceLabels := [] |} options)))))
            entry
          = enforceAllowed entry :: enforceDomain entry
              :: map (λ name, if decide (name = "subject") then Subject entry
                              else if decide (name = "object") then Object entry
                              else Action entry) kept) as Heq.
  { simpl. rewrite enforceLabelValues_map, buildEnforceLabels_filter. fold kept.
    simpl.
    assert (specLabelValue entry "allowed" = enforceAllowed entry) as -> by done.
    assert (specLabelValue entry "domain" = enforceDomain entry) as ->.
    { unfold specLabelValue, enforceDomain. rewrite decide_False by done.
      rewrite decide_True by done.
      destruct (String.eqb_spec (Domain entry) ""); by case_decide. }
    do 2 f_equal.
    - apply map_ext_in. intros name Hin. apply list_elem_of_In in Hin.
      apply list_elem_of_filter in Hin as [Hin _].
      unfold optionalLabels in Hin. rewrite !elem_of_cons, elem_of_nil in Hin.
      unfold specLabelValue.
      destruct Hin as [->|[->|[->|[]]]]; by repeat case_decide. }
  split; [exact Heq|]. intros ->. by rewrite Heq.
Qed.

Lemma constructed_label_vector_witness :
  ∃ r, NewPrometheusLoggerWithOptions (Some NewRegistry) (Some sampleOptions) NewRegistry
       = (r, Some sampleLogger)
       ∧ enforceLabelValues (enforceLabels sampleLogger) sampleEnforce
         = ["true"; "default"; "alice"; "data1"].
Proof.
  destruct (MustRegister_Returned (collectors sampleLogger) NewRegistry)
    as (r & Hreg & _).
  { apply newLogger_registrable_fresh. apply (bool_decide_unpack _). by vm_compute. }
  assert (NewPrometheusLoggerWithOptions (Some NewRegistry) (Some sampleOptions) NewRegistry
          = (r, Some sampleLogger)) as Hnew
    by exact (NewPrometheusLoggerWithOptions_Returned
                (Some NewRegistry) (Some sampleOptions) NewRegistry r Hreg).
  exists r. split; [exact Hnew|].
  exact (proj1 (constructed_label_vector (Some NewRegistry) (Some sampleOptions)
                  NewRegistry r sampleLogger sampleEnforce Hnew)).
Defined.

(* ===================================================================== *)
(** ** The access decisions of the simulation *)
(* ===================================================================== *)

Lemma below_monotone (d1 d2 c : Q) :
  Qle d1 d2 → below d2 c = true → below d1 c = true.
Proof.
  unfold below. rewrite !negb_true_iff. intros Hle Hd2.
  destruct (Qle_bool c d1) eqn:Hd1; [|done].
  apply Qle_bool_iff in Hd1.
  assert (Qle_bool c d2 = true) as Hc by (apply Qle_bool_iff; by eapply Qle_trans).
  congruence.
Qed.

Ltac string_cases :=
  repeat match goal with
  | |- context [String.eqb ?a ?b] => destruct (String.eqb_spec a b); subst
  | H : context [String.eqb ?a ?b] |- _ => destruct (String.eqb_spec a b); subst
  end; simpl in *.

(** X14.  In the role-based decision a smaller random draw never loses
    access, and the draw matters for eve alone; alice is always allowed,
    a user outside the five named ones never; an action other than read
    and write is granted only to alice, or to eve by the draw. *)
Theorem determineRBACAccess_rules user resource action draw :
  (∀ draw', Qle draw' draw →
     determineRBACAccess user resource action draw = true →
     determineRBACAccess user resource action draw' = true)
  ∧ (user ≠ "eve" →
       ∀ draw', determineRBACAccess user resource action draw'
                = determineRBACAccess user resource action draw)
  ∧ (user = "alice" → determineRBACAccess user resource action draw = true)
  ∧ (user ∉ ["alice"; "bob"; "charlie"; "david"; "eve"] →
       determineRBACAccess user resource action draw = false)
  ∧ (action ≠ "read" → action ≠ "write" →
       determineRBACAccess user resource action draw = true →
       user = "alice" ∨ (user = "eve" ∧ below draw (3 # 10) = true)).
Proof.
  unfold determineRBACAccess. repeat split.
  - intros draw' Hle. string_cases; try done; by apply below_monotone.
  - intros Hne draw'. by string_cases.
  - intros ->. by string_cases.
  - rewrite !not_elem_of_cons. intros (? & ? & ? & ? & ? & _). by string_cases.
  - intros Hr Hw. string_cases; try done; eauto.
Qed.

Lemma determineRBACAccess_rules_witness :
  determineRBACAccess "bob" "config" "delete" (1 # 2) = false.
Proof.
  destruct (determineRBACAccess_rules "bob" "config" "delete" (1 # 2))
    as (_ & _ & _ & _ & Honly).
  destruct (determineRBACAccess "bob" "config" "delete" (1 # 2)) eqn:Hres; [|done].
  assert ("delete" ≠ "read") as H1 by done.
  assert ("delete" ≠ "write") as H2 by done.
  destruct (Honly H1 H2 eq_refl) as [Ha|[He _]]; discriminate.
Defined.

(** X15.  The attribute-based decision never grants access to a subject
    whose clearance is below the resource's classification, nor a write
    or delete outside the subject's own department, whatever the draw;
    for every department but guest these two conditions decide the
    result, and a guest who meets them is let in when the draw is below
    0.2.  A smaller draw never loses access. *)
Theorem determineABACAccess_rules clearance department classification ownerDept
    action draw :
  let permitted := (classification ≤ clearance)%Z
                   ∧ (action = "write" ∨ action = "delete" → department = ownerDept) in
  (∀ draw', Qle draw' draw →
     determineABACAccess clearance department classification ownerDept action draw = true →
     determineABACAccess clearance department classification ownerDept action draw' = true)
  ∧ (determineABACAccess clearance department classification ownerDept action draw = true
     → permitted)
  ∧ (department ≠ "guest" →
       (determineABACAccess clearance department classification ownerDept action draw = true
        ↔ permitted))
  ∧ (department = "guest" → permitted →
       determineABACAccess clearance department classification ownerDept action draw
       = below draw (2 # 10)).
Proof.
  intros permitted. subst permitted. unfold determineABACAccess.
  destruct (Z.ltb_spec clearance classification) as [Hlt|Hge].
  { split; [done|]. split; [done|]. split; [intros _; split; [done|lia]|lia]. }
  split.
  { intros draw' Hle. string_cases; try done; by apply below_monotone. }
  repeat split; string_cases; try done; try lia; try tauto;
    try (intros [_ Heq]; exfalso; naive_solver);
    try (intros _ [_ Heq]; exfalso; naive_solver);
    try (intros ? [? ?]; congruence).
Qed.

Lemma determineABACAccess_rules_witness :
  determineABACAccess 3 "engineering" 2 "hr" "read" (1 # 2) = true.
Proof.
  apply (proj2 (proj2 (determineABACAccess_rules 3 "engineering" 2 "hr" "read" (1 # 2)))).
  - discriminate.
  - split; [lia|]. intros [H|H]; discriminate H.
Defined.

(** X16.  In the relationship-based decision the owner is always allowed
    and a smaller draw never loses access.  Someone who is not the owner
    is never granted an action other than read and share inside the
    resource's own organization; across organizations such an action is
    granted when the draw is below 0.1.  Sharing a resource that belongs
    to someone else in one's own organization is granted when the draw is
    below the [float32] nearest to 0.7, which is 11744051/16777216: a
    draw of exactly that value is refused although it is below 0.7. *)
Theorem determineReBACAccess_rules subject subjectOrg resourceOwner resourceOrg
    isPublic action draw :
  (∀ draw', Qle draw' draw →
     determineReBACAccess subject subjectOrg resourceOwner resourceOrg isPublic action draw
     = true →
     determineReBACAccess subject subjectOrg resourceOwner resourceOrg isPublic action draw'
     = true)
  ∧ (subject = resourceOwner →
       determineReBACAccess subject subjectOrg resourceOwner resourceOrg isPublic action draw
       = true)
  ∧ (subject ≠ resourceOwner → action ≠ "read" → action ≠ "share" →
       determineReBACAccess subject subjectOrg resourceOwner resourceOrg isPublic action draw
       = if decide (subjectOrg = resourceOrg) then false else below draw (1 # 10))
  ∧ (subject ≠ resourceOwner → subjectOrg = resourceOrg → action = "share" →
       determineReBACAccess subject subjectOrg resourceOwner resourceOrg isPublic action draw
       = below draw (11744051 # 16777216))
  ∧ below (11744051 # 16777216) (7 # 10) = true
  ∧ below (11744051 # 16777216) (11744051 # 16777216) = false.
Proof.
  unfold determineReBACAccess. split; [|split; [|split; [|split]]].
  - intros draw' Hle. destruct isPublic; string_cases; try done;
      by apply below_monotone.
  - intros ->. by string_cases.
  - intros Hown Hread Hshare.
    destruct isPublic; string_cases; try done; by case_decide.
  - intros Hown -> ->. destruct isPublic; by string_cases.
  - split; reflexivity.
Qed.

Lemma determineReBACAccess_rules_witness :
  determineReBACAccess "bob" "org1" "alice" "org1" false "delete" (0 # 1) = false
  ∧ determineReBACAccess "eve" "org3" "alice" "org1" false "delete" (0 # 1) = true
  ∧ determineReBACAccess "bob" "org1" "alice" "org1" false "share"
      (11744051 # 16777216) = false.
Proof.
  assert ("delete" ≠ "read") as H1 by done.
  assert ("delete" ≠ "share") as H2 by done.
  assert ("bob" ≠ "alice") as Hb by done.
  assert ("eve" ≠ "alice") as He by done.
  split; [|split].
  - exact (proj1 (proj2 (proj2 (determineReBACAccess_rules "bob" "org1" "alice" "org1"
                                  false "delete" (0 # 1)))) Hb H1 H2).
  - exact (proj1 (proj2 (proj2 (determineReBACAccess_rules "eve" "org3" "alice" "org1"
                                  false "delete" (0 # 1)))) He H1 H2).
  - exact (proj1 (proj2 (proj2 (proj2 (determineReBACAccess_rules "bob" "org1" "alice"
                                         "org1" false "share" (11744051 # 16777216)))))
             Hb eq_refl eq_refl).
Defined.

(* ===================================================================== *)
(** ** The rule-count gauge over successive operations *)
(* ===================================================================== *)

Lemma OnAfterEvent_policy_gauge K p now entry calls :
  kinds_distinct K → kinds_utf8 K → logger_wf p → IsActive entry = true →
  EventType_ entry ∈ policyKinds K →
  ∃ a, OnAfterEvent K p now entry calls = Some a
    ∧ logger_wf (ae_logger a)
    ∧ child (float64 0) (policyRulesCount (ae_logger a)) [EventType_ entry]
      = if (0 <? RuleCount entry)%Z then float64 (RuleCount entry)
        else child (float64 0) (policyRulesCount p) [EventType_ entry].
Proof.
  intros Hnd Hutf Hwf Hact Hin.
  rewrite OnAfterEvent_active by done.
  rewrite recordByEventType_policy by done.
  destruct (recordPolicyMetrics_Some p (stamped now entry) Hwf
              (kinds_utf8_policy K _ Hutf Hin))
    as (c & h & g & Hc & Hh & Hg & Hrec).
  rewrite Hrec. simpl. eexists. split; [reflexivity|].
  rewrite afterCallback_logger.
  split; [by eapply recordPolicyMetrics_wf|]. simpl in Hg |- *.
  rewrite Z.gtb_ltb in Hg. destruct (0 <? RuleCount entry)%Z.
  - rewrite (WithLabelValues_child _ _ _ _ _ [EventType_ entry] Hg).
    by rewrite decide_True.
  - by injection Hg as <-.
Qed.

(** X17.  The rule-count gauge shows the latest reported count, not a
    sum: after two operations of the same kind, the first with a positive
    [RuleCount], the gauge holds the second's [RuleCount] when that is
    positive and the first's otherwise.  (The event constants are valid
    UTF-8.) *)
Theorem policyRulesCount_latest K p now1 now2 entry1 entry2 calls :
  kinds_distinct K → kinds_utf8 K → logger_wf p →
  IsActive entry1 = true → IsActive entry2 = true →
  EventType_ entry1 ∈ policyKinds K → EventType_ entry2 = EventType_ entry1 →
  (0 < RuleCount entry1)%Z →
  ∃ a1 a2,
    OnAfterEvent K p now1 entry1 calls = Some a1
    ∧ OnAfterEvent K (ae_logger a1) now2 entry2 (ae_calls a1) = Some a2
    ∧ child (float64 0) (policyRulesCount (ae_logger a2)) [EventType_ entry1]
      = float64 (if (0 <? RuleCount entry2)%Z then RuleCount entry2
                 else RuleCount entry1).
Proof.
  intros Hnd Hutf Hwf Hact1 Hact2 Hin Hsame Hpos.
  destruct (OnAfterEvent_policy_gauge K p now1 entry1 calls Hnd Hutf Hwf Hact1 Hin)
    as (a1 & Ha1 & Hwf1 & Hg1).
  assert (EventType_ entry2 ∈ policyKinds K) as Hin2 by (by rewrite Hsame).
  destruct (OnAfterEvent_policy_gauge K (ae_logger a1) now2 entry2 (ae_calls a1)
              Hnd Hutf Hwf1 Hact2 Hin2) as (a2 & Ha2 & _ & Hg2).
  exists a1, a2. split; [done|]. split; [done|].
  rewrite Hsame in Hg2. rewrite Hg2, Hg1.
  apply Z.ltb_lt in Hpos. rewrite Hpos.
  by destruct (0 <? RuleCount entry2)%Z.
Qed.

Lemma policyRulesCount_latest_witness :
  ∃ a1 a2,
    OnAfterEvent casbinKinds sampleLogger 150%Z sampleAddPolicy [] = Some a1
    ∧ OnAfterEvent casbinKinds (ae_logger a1) 160%Z
        {| IsActive := true; EventType_ := "addPolicy"; StartTime := 155%Z;
           EndTime := 0%Z; Duration := 0%Z; Subject := ""; Object := "";
           Action := ""; Domain := ""; Allowed := false; RuleCount := 0%Z;
           Error := None |} (ae_calls a1) = Some a2
    ∧ child (float64 0) (policyRulesCount (ae_logger a2)) ["addPolicy"] = float64 5.
Proof.
  assert (kinds_distinct casbinKinds) as Hnd.
  { apply (bool_decide_unpack _). by vm_compute. }
  assert (EventType_ sampleAddPolicy ∈ policyKinds casbinKinds) as Hin by left.
  assert (0 < RuleCount sampleAddPolicy)%Z as Hpos by reflexivity.
  exact (policyRulesCount_latest casbinKinds sampleLogger 150%Z 160%Z sampleAddPolicy
           {| IsActive := true; EventType_ := "addPolicy"; StartTime := 155%Z;
              EndTime := 0%Z; Duration := 0%Z; Subject := ""; Object := "";
              Action := ""; Domain := ""; Allowed := false; RuleCount := 0%Z;
              Error := None |} []
           Hnd eq_refl (newLogger_wf _) eq_refl eq_refl Hin eq_refl Hpos).
Defined.

(* ===================================================================== *)
(** ** When the after hook panics *)
(* ===================================================================== *)


